(** * The cigarette smokers table (main.py)

    A shallow embedding of the [Table] class of main.py, the shared object
    through which one agent thread and three smoker threads synchronise,
    together with the properties of its three methods.

    - the three ingredient strings of [INGREDIENTS] are an enumeration;
    - [threading.Semaphore] objects are permit counters: [acquire] needs a
      permit and takes it, [release] adds one;
    - [self.smoker_status] is a dictionary, a [gmap]; reading a missing key
      raises [KeyError];
    - [set(...)] values are [gset]s;
    - a method is a state transformer whose outcome is a return value, a
      raised exception, or a call that blocks on a semaphore for ever;
    - the threads touch [ingredients], [smoker_status] and [table_busy]
      only inside [with self.table_mutex] blocks, so concurrent calls take
      effect one after the other; an interleaving is a sequence of calls;
    - the program is its threads ([agent], the three [smoker]s and the
      [smoke] threads they start) and the table; a thread's step is one
      semaphore operation or one block under the mutex;
    - the [print] calls only narrate and are left out. *)

From stdpp Require Import base decidable countable finite list gmap fin_maps fin_sets.

(** ** Ingredients *)

(** The three strings of [INGREDIENTS], in the order of the list:
    tobacco, paper, matches. *)
Inductive Ingredient := Tobacco | Paper | Matches.

#[global] Instance Ingredient_eq_dec : EqDecision Ingredient.
Proof. solve_decision. Defined.

Definition Ingredient_to_nat (i : Ingredient) : nat :=
  match i with Tobacco => 0 | Paper => 1 | Matches => 2 end.

Definition Ingredient_of_nat (n : nat) : option Ingredient :=
  match n with
  | 0 => Some Tobacco
  | 1 => Some Paper
  | 2 => Some Matches
  | _ => None
  end.

#[global] Program Instance Ingredient_countable : Countable Ingredient :=
  inj_countable Ingredient_to_nat Ingredient_of_nat _.
Next Obligation. by intros []. Qed.

Definition INGREDIENTS : list Ingredient := [Tobacco; Paper; Matches].

(** ** The table object *)

Record Table := mkTable {
  table_mutex : nat;
  agent_sem : nat;
  smoker_sem : nat;
  ingredients : list Ingredient;
  smoker_status : gmap Ingredient bool;
  table_busy : bool
}.

(** [Table.__init__]: the dictionary comprehension inserts the keys of
    [INGREDIENTS] from left to right. *)
Definition Table_init : Table :=
  {| table_mutex := 1;
     agent_sem := 1;
     smoker_sem := 0;
     ingredients := [];
     smoker_status :=
       foldl (fun d ingredient => <[ingredient := false]> d) ∅ INGREDIENTS;
     table_busy := false |}.

Definition set_table_mutex (n : nat) (t : Table) : Table :=
  mkTable n (agent_sem t) (smoker_sem t) (ingredients t) (smoker_status t)
    (table_busy t).
Definition set_agent_sem (n : nat) (t : Table) : Table :=
  mkTable (table_mutex t) n (smoker_sem t) (ingredients t) (smoker_status t)
    (table_busy t).
Definition set_smoker_sem (n : nat) (t : Table) : Table :=
  mkTable (table_mutex t) (agent_sem t) n (ingredients t) (smoker_status t)
    (table_busy t).
Definition set_ingredients (l : list Ingredient) (t : Table) : Table :=
  mkTable (table_mutex t) (agent_sem t) (smoker_sem t) l (smoker_status t)
    (table_busy t).
Definition set_smoker_status (d : gmap Ingredient bool) (t : Table) : Table :=
  mkTable (table_mutex t) (agent_sem t) (smoker_sem t) (ingredients t) d
    (table_busy t).
Definition set_table_busy (b : bool) (t : Table) : Table :=
  mkTable (table_mutex t) (agent_sem t) (smoker_sem t) (ingredients t)
    (smoker_status t) b.

(** ** Method calls as state transformers *)

Inductive exn := KeyError (key : Ingredient).

(** What a call does from a given state of the table: it returns a value,
    it raises, or it waits for ever on a semaphore that has no permit. *)
Inductive outcome (A : Type) : Type :=
  | Returned (a : A) (t : Table)
  | Raised (e : exn) (t : Table)
  | Blocked.
Arguments Returned {A} a t.
Arguments Raised {A} e t.
Arguments Blocked {A}.

Definition M (A : Type) : Type := Table → outcome A.

#[global] Instance M_ret : MRet M := λ A a t, Returned a t.
#[global] Instance M_bind : MBind M := λ A B f m t,
  match m t with
  | Returned a t' => f a t'
  | Raised e t' => Raised e t'
  | Blocked => Blocked
  end.

Definition read {A} (field : Table → A) : M A := λ t, Returned (field t) t.
Definition write (upd : Table → Table) : M () := λ t, Returned () (upd t).
Definition raise {A} (e : exn) : M A := λ t, Raised e t.

(** *** Semaphores *)

Inductive Semaphore := TableMutex | AgentSem | SmokerSem.

Definition permits (s : Semaphore) : Table → nat :=
  match s with
  | TableMutex => table_mutex
  | AgentSem => agent_sem
  | SmokerSem => smoker_sem
  end.

Definition set_permits (s : Semaphore) : nat → Table → Table :=
  match s with
  | TableMutex => set_table_mutex
  | AgentSem => set_agent_sem
  | SmokerSem => set_smoker_sem
  end.

(** [sem.acquire()]: takes a permit, or waits while there is none. *)
Definition acquire (s : Semaphore) : M () := λ t,
  match permits s t with
  | 0 => Blocked
  | S n => Returned () (set_permits s n t)
  end.

(** [sem.release()]: adds a permit; the counter has no upper bound. *)
Definition release (s : Semaphore) : M () :=
  write (λ t, set_permits s (S (permits s t)) t).

(** [with sem: body]: the permit is given back when the body is left,
    whether by falling through, by [return] or by an exception. *)
Definition with_sem {A} (s : Semaphore) (body : M A) : M A := λ t,
  match acquire s t with
  | Returned _ t1 =>
      match body t1 with
      | Returned a t2 => (release s ;; mret a) t2
      | Raised e t2 => (release s ;; raise e) t2
      | Blocked => Blocked
      end
  | Raised e t1 => Raised e t1
  | Blocked => Blocked
  end.

(** *** The dictionary [smoker_status] *)

(** [self.smoker_status[key]] *)
Definition status_getitem (key : Ingredient) : M bool := λ t,
  match smoker_status t !! key with
  | Some b => Returned b t
  | None => Raised (KeyError key) t
  end.

(** [self.smoker_status[key] = b] *)
Definition status_setitem (key : Ingredient) (b : bool) : M () :=
  write (λ t, set_smoker_status (<[key := b]> (smoker_status t)) t).

(** ** The methods of [Table] *)

(** [Table.place_ingredients(first, second)] *)
Definition place_ingredients (first second : Ingredient) : M () :=
  acquire AgentSem ;;
  with_sem TableMutex (
    write (set_ingredients [first; second]) ;;
    write (set_table_busy true)) ;;
  release SmokerSem.

(** The set [needed] computed by [try_take]. *)
Definition needed (own_ingredient : Ingredient) : gset Ingredient :=
  list_to_set INGREDIENTS ∖ {[own_ingredient]}.

(** [Table.try_take(own_ingredient)].  The value of the [with] block is
    [true] where the source returns [True] from inside it, and [false]
    where control leaves the block and reaches the final [return False].
    The dictionary is read only when the first operand of [and] holds. *)
Definition try_take (own_ingredient : Ingredient) : M bool :=
  with_sem TableMutex (
    on_table ← read ingredients;
    if decide (list_to_set on_table = needed own_ingredient) then
      smoking ← status_getitem own_ingredient;
      if negb smoking then
        write (set_ingredients []) ;;
        write (set_table_busy false) ;;
        status_setitem own_ingredient true ;;
        release AgentSem ;;
        mret true
      else mret false
    else mret false).

(** [Table.finish_smoking(own_ingredient)] *)
Definition finish_smoking (own_ingredient : Ingredient) : M () :=
  with_sem TableMutex (status_setitem own_ingredient false) ;;
  release SmokerSem.

(** ** The threads' use of the table *)

(** [random.sample(population, 2)]: two elements drawn at two different
    positions; the list of all possible draws. *)
Definition random_sample2 {A} (population : list A) : list (A * A) :=
  '(i, x) ← imap pair population;
  '(j, y) ← imap pair population;
  if decide (i = j) then [] else [(x, y)].

(** A call of one of the three methods on the shared table. *)
Inductive call :=
  | PlaceIngredients (first second : Ingredient)
  | TryTake (own_ingredient : Ingredient)
  | FinishSmoking (own_ingredient : Ingredient).

(** The table a call leaves behind when it comes to an end, by a return or
    by an exception; a call that blocks leaves none. *)
Definition state_after {A} (o : outcome A) : option Table :=
  match o with
  | Returned _ t | Raised _ t => Some t
  | Blocked => None
  end.

Definition run (c : call) (t : Table) : option Table :=
  match c with
  | PlaceIngredients first second => state_after (place_ingredients first second t)
  | TryTake own_ingredient => state_after (try_take own_ingredient t)
  | FinishSmoking own_ingredient => state_after (finish_smoking own_ingredient t)
  end.

(** A sequence of calls, one after the other: every method works on the
    shared fields inside one [with self.table_mutex] block, so the calls of
    concurrent threads take effect in some such order. *)
Fixpoint run_calls (cs : list call) (t : Table) : option Table :=
  match cs with
  | [] => Some t
  | c :: cs' => t' ← run c t; run_calls cs' t'
  end.

(** The states that sequences of calls reach from a new table; [allowed]
    says which calls are made in which state. *)
Inductive reachable (allowed : Table → call → Prop) : Table → Prop :=
  | reachable_init : reachable allowed Table_init
  | reachable_call t c t' :
      reachable allowed t → allowed t c → run c t = Some t' →
      reachable allowed t'.

(** Any call in any state. *)
Definition any_call : Table → call → Prop := λ _ _, True.

(** The calls of main.py's threads: [agent] places a pair it drew with
    [random.sample(INGREDIENTS, 2)]; a smoker and its [smoke] thread pass
    their own ingredient. *)
Definition thread_call : Table → call → Prop := λ _ c,
  match c with
  | PlaceIngredients first second => (first, second) ∈ random_sample2 INGREDIENTS
  | TryTake _ | FinishSmoking _ => True
  end.

(** The outcomes of a sequence of [try_take] calls. *)
Fixpoint try_take_each (ks : list Ingredient) (t : Table) : list (outcome bool) :=
  match ks with
  | [] => []
  | k :: ks' =>
      let o := try_take k t in
      o :: try_take_each ks' (default t (state_after o))
  end.

Definition returned_true (o : outcome bool) : bool :=
  match o with
  | Returned true _ => true
  | _ => false
  end.

(** ** State predicates *)

(** At most one entry of [smoker_status] is [True]. *)
Definition at_most_one_smoking (t : Table) : Prop :=
  ∀ j k, smoker_status t !! j = Some true → smoker_status t !! k = Some true →
         j = k.

(** No entry of [smoker_status] is [True]. *)
Definition nobody_smoking (t : Table) : Prop :=
  ∀ k, smoker_status t !! k ≠ Some true.

(** [table_busy] tells whether something lies on the table. *)
Definition busy_iff_nonempty (t : Table) : Prop :=
  table_busy t = true ↔ ingredients t ≠ [].

(** The dictionary has an entry for each of the three ingredients. *)
Definition status_total (t : Table) : Prop :=
  ∀ k, is_Some (smoker_status t !! k).

(** The agent waits for the smokers: [place_ingredients] is called only
    while no entry of [smoker_status] is [True]. *)
Definition place_when_nobody_smokes : Table → call → Prop := λ t c,
  match c with
  | PlaceIngredients _ _ => nobody_smoking t
  | TryTake _ | FinishSmoking _ => True
  end.

(** Every call of the sequence [cs], started in [t], is allowed in the
    state in which it is made, and comes to an end. *)
Fixpoint calls_allowed (allowed : Table → call → Prop) (cs : list call)
    (t : Table) : Prop :=
  match cs with
  | [] => True
  | c :: cs' =>
      allowed t c ∧
      match run c t with
      | Some t' => calls_allowed allowed cs' t'
      | None => False
      end
  end.

(** ** Some tables *)

(** Tobacco and paper lie on the table, nobody smokes. *)
Definition table_tobacco_paper : Table :=
  mkTable 1 0 1 [Tobacco; Paper] (smoker_status Table_init) true.

(** The smoker with the matches has taken them. *)
Definition table_matches_smoking : Table :=
  mkTable 1 1 1 [] (<[Matches := true]> (smoker_status Table_init)) false.

(** Paper and matches lie on the table while the smoker with the matches
    still smokes. *)
Definition table_paper_matches : Table :=
  mkTable 1 0 2 [Paper; Matches]
    (<[Matches := true]> (smoker_status Table_init)) true.

(** The smokers with the matches and with the tobacco both smoke. *)
Definition table_two_smoking : Table :=
  mkTable 1 1 2 []
    (<[Tobacco := true]> (<[Matches := true]> (smoker_status Table_init))) false.

(** Twice tobacco on the table. *)
Definition table_tobacco_twice : Table :=
  mkTable 1 0 1 [Tobacco; Tobacco] (smoker_status Table_init) true.

(** ** The loop of a smoker *)

(** One turn of the [while True] loop of [smoker], as far as the table is
    concerned: the result tells whether the [smoke] thread is started.
    [time.sleep] only delays the next turn. *)
Definition smoker_iteration (own_ingredient : Ingredient) : M bool :=
  acquire SmokerSem ;;
  taken ← try_take own_ingredient;
  if taken : bool then mret true
  else (release SmokerSem ;; mret false).

(** ** The threads of main.py *)

(** The part of [place_ingredients] under the mutex, between the
    [acquire] of [agent_sem] and the [release] of [smoker_sem]. *)
Definition place_section (first second : Ingredient) : M () :=
  with_sem TableMutex (
    write (set_ingredients [first; second]) ;;
    write (set_table_busy true)).

(** The part of [finish_smoking] under the mutex. *)
Definition finish_section (own_ingredient : Ingredient) : M () :=
  with_sem TableMutex (status_setitem own_ingredient false).

(** Where a thread stands: the operation on the table it does next.  A
    semaphore operation or a block under the mutex is one step;
    [time.sleep] only delays the next step. *)

(** [agent]: the draw, then the three parts of [place_ingredients]. *)
Inductive agent_pc :=
  | AgentSample
  | AgentAcquire (first second : Ingredient)
  | AgentPlace (first second : Ingredient)
  | AgentSignal.

(** [smoker]: [smoker_sem.acquire()], [try_take], then the start of the
    [smoke] thread or [smoker_sem.release()]. *)
Inductive smoker_pc :=
  | SmokerAcquire
  | SmokerTryTake
  | SmokerStart
  | SmokerRelease.

(** [smoke]: the two parts of [finish_smoking]. *)
Inductive smoke_pc :=
  | SmokeFinish
  | SmokeSignal.

Inductive thread :=
  | Agent (pc : agent_pc)
  | Smoker (own_ingredient : Ingredient) (pc : smoker_pc)
  | Smoke (own_ingredient : Ingredient) (pc : smoke_pc).

(** How a thread goes on after an operation: with the threads [next]
    gives for the value returned; an exception ends the thread; a blocked
    operation is no step. *)
Definition resume {A} (o : outcome A) (next : A → list thread) :
    list (list thread * Table) :=
  match o with
  | Returned a t' => [(next a, t')]
  | Raised _ t' => [([], t')]
  | Blocked => []
  end.

(** The steps a thread can take on the table [t]: each gives the threads
    that stand in its place afterwards, and the new table. *)
Definition thread_step (th : thread) (t : Table) : list (list thread * Table) :=
  match th with
  | Agent AgentSample =>
      (λ draw, ([Agent (AgentAcquire draw.1 draw.2)], t))
        <$> random_sample2 INGREDIENTS
  | Agent (AgentAcquire first second) =>
      resume (acquire AgentSem t) (λ _, [Agent (AgentPlace first second)])
  | Agent (AgentPlace first second) =>
      resume (place_section first second t) (λ _, [Agent AgentSignal])
  | Agent AgentSignal =>
      resume (release SmokerSem t) (λ _, [Agent AgentSample])
  | Smoker own SmokerAcquire =>
      resume (acquire SmokerSem t) (λ _, [Smoker own SmokerTryTake])
  | Smoker own SmokerTryTake =>
      resume (try_take own t)
        (λ taken : bool,
           if taken then [Smoker own SmokerStart] else [Smoker own SmokerRelease])
  | Smoker own SmokerStart =>
      [([Smoker own SmokerAcquire; Smoke own SmokeFinish], t)]
  | Smoker own SmokerRelease =>
      resume (release SmokerSem t) (λ _, [Smoker own SmokerAcquire])
  | Smoke own SmokeFinish =>
      resume (finish_section own t) (λ _, [Smoke own SmokeSignal])
  | Smoke own SmokeSignal =>
      resume (release SmokerSem t) (λ _, [])
  end.

(** The running program: its threads and the table they share. *)
Record System := mkSystem {
  threads : list thread;
  table : Table
}.

(** [main]: a new table, the agent and the three smokers.  The main thread
    itself only sleeps. *)
Definition main : System :=
  mkSystem
    [Agent AgentSample; Smoker Tobacco SmokerAcquire;
     Smoker Paper SmokerAcquire; Smoker Matches SmokerAcquire]
    Table_init.

(** The thread at position [i] takes the step number [choice] of those it
    can take. *)
Definition step_thread (i choice : nat) (sys : System) : option System :=
  th ← threads sys !! i;
  next ← thread_step th (table sys) !! choice;
  Some (mkSystem (take i (threads sys) ++ next.1 ++ drop (S i) (threads sys))
          next.2).

Fixpoint run_schedule (schedule : list (nat * nat)) (sys : System) :
    option System :=
  match schedule with
  | [] => Some sys
  | (i, choice) :: schedule' =>
      sys' ← step_thread i choice sys; run_schedule schedule' sys'
  end.

(** The states of the program under every interleaving of its threads. *)
Inductive sys_reachable : System → Prop :=
  | sys_reachable_main : sys_reachable main
  | sys_reachable_step sys i choice sys' :
      sys_reachable sys → step_thread i choice sys = Some sys' →
      sys_reachable sys'.

(** *** Counting threads *)

(** The agent has taken the permit of [agent_sem] and not yet placed. *)
Definition holds_agent_permit (th : thread) : nat :=
  match th with
  | Agent (AgentPlace _ _) => 1
  | _ => 0
  end.

(** The thread has a permit of [smoker_sem] in hand: a smoker that has
    acquired one and not yet taken the pair or released, or a thread that
    is about to release one. *)
Definition holds_smoker_permit (th : thread) : nat :=
  match th with
  | Agent AgentSignal | Smoker _ SmokerTryTake | Smoker _ SmokerRelease
  | Smoke _ SmokeSignal => 1
  | _ => 0
  end.

(** Smoker [k] has taken a pair and its [smoke] thread has not yet cleared
    [smoker_status[k]]. *)
Definition smokes (k : Ingredient) (th : thread) : nat :=
  match th with
  | Smoker own SmokerStart | Smoke own SmokeFinish =>
      if decide (own = k) then 1 else 0
  | _ => 0
  end.

Definition is_agent (th : thread) : nat :=
  match th with
  | Agent _ => 1
  | _ => 0
  end.

Definition is_smoker (k : Ingredient) (th : thread) : nat :=
  match th with
  | Smoker own _ => if decide (own = k) then 1 else 0
  | _ => 0
  end.

(** The pair the agent carries was drawn by [random.sample]. *)
Definition carries_draw (th : thread) : Prop :=
  match th with
  | Agent (AgentAcquire first second) | Agent (AgentPlace first second) =>
      (first, second) ∈ random_sample2 INGREDIENTS
  | _ => True
  end.

(** What holds in every state of the program. *)
Record sys_invariant (sys : System) : Prop := {
  inv_mutex : table_mutex (table sys) = 1;
  inv_total : status_total (table sys);
  inv_busy : busy_iff_nonempty (table sys);
  inv_agent :
    agent_sem (table sys) + sum_list_with holds_agent_permit (threads sys)
    + (if table_busy (table sys) then 1 else 0) = 1;
  inv_wake :
    ingredients (table sys) ≠ [] →
    1 ≤ smoker_sem (table sys) + sum_list_with holds_smoker_permit (threads sys);
  inv_smokes : ∀ k,
    smoker_status (table sys) !! k
    = Some (bool_decide (sum_list_with (smokes k) (threads sys) = 1)) ∧
    sum_list_with (smokes k) (threads sys) ≤ 1;
  inv_one_agent : sum_list_with is_agent (threads sys) = 1;
  inv_one_smoker : ∀ k, sum_list_with (is_smoker k) (threads sys) = 1;
  inv_draw : Forall carries_draw (threads sys)
}.

(** The program with [n] permits in [smoker_sem] and everything else as at
    the start. *)
Definition main_with_permits (n : nat) : System :=
  mkSystem (threads main) (set_smoker_sem n Table_init).

(** *** Some states of the program *)

(** The agent has drawn tobacco and paper and taken its permit. *)
Definition sys_agent_placing : System :=
  mkSystem
    [Agent (AgentPlace Tobacco Paper); Smoker Tobacco SmokerAcquire;
     Smoker Paper SmokerAcquire; Smoker Matches SmokerAcquire]
    (set_agent_sem 0 Table_init).

(** Tobacco and paper lie on the table; the agent has not yet released
    [smoker_sem]. *)
Definition sys_pair_waiting : System :=
  mkSystem
    [Agent AgentSignal; Smoker Tobacco SmokerAcquire;
     Smoker Paper SmokerAcquire; Smoker Matches SmokerAcquire]
    (mkTable 1 0 0 [Tobacco; Paper] (smoker_status Table_init) true).

(** The smoker with the matches has taken the pair and started its
    [smoke] thread. *)
Definition sys_matches_smoking : System :=
  mkSystem
    [Agent AgentSample; Smoker Tobacco SmokerAcquire;
     Smoker Paper SmokerAcquire; Smoker Matches SmokerAcquire;
     Smoke Matches SmokeFinish]
    (mkTable 1 1 0 [] (<[Matches := true]> (smoker_status Table_init)) false).

(** ** Equations of the methods *)

Ltac unfold_M :=
  unfold place_ingredients, try_take, finish_smoking, with_sem, acquire,
    release, status_getitem, status_setitem, read, write, raise,
    mbind, M_bind, mret, M_ret; simpl.

Lemma place_ingredients_eq first second t :
  place_ingredients first second t =
  match agent_sem t, table_mutex t with
  | S a, S m =>
      Returned ()
        (mkTable (S m) a (S (smoker_sem t)) [first; second] (smoker_status t) true)
  | _, _ => Blocked
  end.
Proof. destruct t as [[|m] [|a] s i d b]; reflexivity. Qed.

Lemma try_take_eq k t :
  try_take k t =
  match table_mutex t with
  | 0 => Blocked
  | S _ =>
      if decide (list_to_set (ingredients t) = needed k) then
        match smoker_status t !! k with
        | None => Raised (KeyError k) t
        | Some true => Returned false t
        | Some false =>
            Returned true
              (mkTable (table_mutex t) (S (agent_sem t)) (smoker_sem t) []
                 (<[k := true]> (smoker_status t)) false)
        end
      else Returned false t
  end.
Proof.
  destruct t as [[|m] a s i d b]; [reflexivity|].
  unfold_M. case_decide; [|reflexivity].
  unfold set_table_mutex; cbn. destruct (d !! k) as [[]|]; reflexivity.
Qed.

Lemma finish_smoking_eq k t :
  finish_smoking k t =
  match table_mutex t with
  | 0 => Blocked
  | S _ =>
      Returned ()
        (mkTable (table_mutex t) (agent_sem t) (S (smoker_sem t)) (ingredients t)
           (<[k := false]> (smoker_status t)) (table_busy t))
  end.
Proof. destruct t as [[|m] a s i d b]; reflexivity. Qed.

(** ** The set a smoker needs *)

Lemma elem_of_needed x k : x ∈ needed k ↔ x ≠ k.
Proof.
  unfold needed. rewrite elem_of_difference, elem_of_list_to_set, elem_of_singleton.
  split; [tauto|]. intros Hx. split; [|done].
  destruct x; unfold INGREDIENTS; set_solver.
Qed.

Lemma on_table_needed (l : list Ingredient) k :
  list_to_set l = needed k ↔ ∀ x, x ∈ l ↔ x ≠ k.
Proof.
  rewrite set_eq. apply forall_proper; intros x.
  by rewrite elem_of_list_to_set, elem_of_needed.
Qed.

Lemma needed_inj j k : needed j = needed k → j = k.
Proof.
  intros H. destruct (decide (j = k)) as [|Hne]; [done|].
  assert (k ∈ needed j) as Hk by by apply elem_of_needed.
  rewrite H in Hk. by apply elem_of_needed in Hk.
Qed.

Lemma needed_nonempty (l : list Ingredient) k : list_to_set l = needed k → l ≠ [].
Proof.
  intros H ->. rewrite on_table_needed in H.
  destruct k.
  - by apply (elem_of_nil Paper), H.
  - by apply (elem_of_nil Tobacco), H.
  - by apply (elem_of_nil Tobacco), H.
Qed.

Lemma needed_not_twice a k : list_to_set [a; a] ≠ needed k.
Proof.
  intros H. rewrite on_table_needed in H.
  assert (∀ x, x ≠ k → x = a) as Hall.
  { intros x Hx. apply H in Hx. by repeat (apply elem_of_cons in Hx as [|Hx]; [done|]);
      apply elem_of_nil in Hx. }
  destruct k.
  - pose proof (Hall Paper ltac:(done)). pose proof (Hall Matches ltac:(done)). congruence.
  - pose proof (Hall Tobacco ltac:(done)). pose proof (Hall Matches ltac:(done)). congruence.
  - pose proof (Hall Tobacco ltac:(done)). pose proof (Hall Paper ltac:(done)). congruence.
Qed.

(** ** What a [try_take] call can do *)

Lemma try_take_true_inv k t t' :
  try_take k t = Returned true t' →
  0 < table_mutex t ∧ list_to_set (ingredients t) = needed k ∧
  smoker_status t !! k = Some false ∧
  t' = mkTable (table_mutex t) (S (agent_sem t)) (smoker_sem t) []
         (<[k := true]> (smoker_status t)) false.
Proof.
  rewrite try_take_eq. destruct (table_mutex t); [done|].
  case_decide; [|done].
  destruct (smoker_status t !! k) as [[]|]; [done| |done].
  intros [= <-]. split_and!; [lia|done..].
Qed.

Lemma try_take_cases k t :
  try_take k t = Blocked ∨ try_take k t = Raised (KeyError k) t ∨
  try_take k t = Returned false t ∨ ∃ t', try_take k t = Returned true t'.
Proof.
  rewrite try_take_eq. destruct (table_mutex t); [by left|].
  case_decide; [|by right; right; left].
  destruct (smoker_status t !! k) as [[]|]; eauto 6.
Qed.

Lemma try_take_empty k t :
  ingredients t = [] →
  try_take k t = Blocked ∨ try_take k t = Returned false t.
Proof.
  intros Hempty. rewrite try_take_eq. destruct (table_mutex t); [by left|].
  case_decide as Hset; [|by right]. by apply needed_nonempty in Hset.
Qed.

Lemma try_take_returns k t :
  0 < table_mutex t → status_total t →
  ∃ b t', try_take k t = Returned b t'.
Proof.
  intros Hm Htot. rewrite try_take_eq.
  destruct (table_mutex t); [lia|].
  case_decide; [|eauto].
  destruct (Htot k) as [[] ->]; eauto.
Qed.

(** ** [try_take]: when it succeeds and what it does *)

(** C2. For every ingredient [k] and every table whose mutex can be taken,
    so that the call gets to its check, [try_take k] returns [True] exactly
    when the set of the ingredients on the table is the set of all
    ingredients without [k] and the entry [smoker_status[k]] is [False]. *)
Theorem try_take_true_iff k t :
  0 < table_mutex t →
  (∃ t', try_take k t = Returned true t') ↔
  list_to_set (ingredients t) =@{gset Ingredient} list_to_set INGREDIENTS ∖ {[k]} ∧
  smoker_status t !! k = Some false.
Proof.
  intros Hm. fold (needed k). split.
  - intros [t' H]. apply try_take_true_inv in H. tauto.
  - intros [Hset Hk]. rewrite try_take_eq.
    destruct (table_mutex t); [lia|].
    rewrite decide_True, Hk by done. eauto.
Qed.

(** C3. When [try_take k] returns [True], the table is cleared,
    [table_busy] is [False], [smoker_status[k]] is [True], [agent_sem] has
    one permit more, and nothing else has changed: the entries of the other
    smokers, the permits of [smoker_sem] and the mutex are as before. *)
Theorem try_take_true_effect k t t' :
  try_take k t = Returned true t' →
  ingredients t' = [] ∧ table_busy t' = false ∧
  smoker_status t' !! k = Some true ∧
  agent_sem t' = S (agent_sem t) ∧
  (∀ j, j ≠ k → smoker_status t' !! j = smoker_status t !! j) ∧
  smoker_sem t' = smoker_sem t ∧ table_mutex t' = table_mutex t.
Proof.
  intros H. apply try_take_true_inv in H as (_ & _ & _ & ->). cbn.
  split_and!; try done.
  - apply lookup_insert_eq.
  - intros j Hj. by apply lookup_insert_ne.
Qed.

(** C5. When [try_take k] returns [False], the table is as it was before
    the call: the ingredients, [table_busy], every entry of
    [smoker_status] and the permits of the semaphores. *)
Theorem try_take_false_unchanged k t t' :
  try_take k t = Returned false t' → t' = t.
Proof.
  destruct (try_take_cases k t) as [H|[H|[H|[t'' H]]]]; rewrite H; try done.
  by intros [= <-].
Qed.

(** C8. After [try_take k] has returned [True], the next [try_take k]
    returns [False]. *)
Theorem try_take_twice k t t' :
  try_take k t = Returned true t' → try_take k t' = Returned false t'.
Proof.
  intros H. apply try_take_true_inv in H as (Hm & _ & _ & ->).
  rewrite try_take_eq; cbn. destruct (table_mutex t); [lia|].
  rewrite decide_False; [done|]. intros Hset. by apply (needed_nonempty []) in Hset.
Qed.

(** ** [place_ingredients] *)

(** C4. For two different ingredients [a] and [b], [place_ingredients a b]
    returns as soon as [agent_sem] has a permit and the mutex is free, and
    a call that returns has put exactly [a], [b] on the table, set
    [table_busy], and added exactly one permit to [smoker_sem]; it has
    taken its permit from [agent_sem] and left [smoker_status] alone. *)
Theorem place_ingredients_effect a b t :
  a ≠ b →
  (0 < agent_sem t → 0 < table_mutex t →
   ∃ t', place_ingredients a b t = Returned () t') ∧
  (∀ t', place_ingredients a b t = Returned () t' →
         ingredients t' = [a; b] ∧ table_busy t' = true ∧
         smoker_sem t' = S (smoker_sem t) ∧
         S (agent_sem t') = agent_sem t ∧
         smoker_status t' = smoker_status t ∧
         table_mutex t' = table_mutex t).
Proof.
  intros _. rewrite place_ingredients_eq.
  destruct (agent_sem t) as [|n], (table_mutex t) as [|m]; split;
    try lia; try done; eauto.
  by intros t' [= <-].
Qed.

(** C9. After [place_ingredients a a], with twice the same ingredient,
    [try_take k] returns [False] for every [k], and this stays so whatever
    [try_take] and [finish_smoking] calls follow: the pair stays on the
    table. *)
Theorem place_same_never_taken a t t' :
  place_ingredients a a t = Returned () t' →
  (∀ k, try_take k t' = Returned false t') ∧
  (∀ cs t'',
     Forall (λ c, ∀ x y, c ≠ PlaceIngredients x y) cs →
     run_calls cs t' = Some t'' →
     ingredients t'' = [a; a] ∧ ∀ k, try_take k t'' = Returned false t'').
Proof.
  intros Hplace.
  assert (∀ u, 0 < table_mutex u → ingredients u = [a; a] →
               ∀ k, try_take k u = Returned false u) as Hfalse.
  { intros u Hm Hu k. rewrite try_take_eq, Hu.
    destruct (table_mutex u); [lia|].
    rewrite decide_False; [done|]. apply needed_not_twice. }
  assert (0 < table_mutex t' ∧ ingredients t' = [a; a]) as [Hm Hi].
  { rewrite place_ingredients_eq in Hplace.
    destruct (agent_sem t), (table_mutex t); try done.
    injection Hplace as <-. cbn. split; [lia|done]. }
  split; [by apply Hfalse|].
  intros cs. clear Hplace. revert t' Hm Hi.
  induction cs as [|c cs IH]; intros t' Hm Hi t'' Hcs Hrun; cbn in Hrun.
  { injection Hrun as <-. split; [done|]. by apply Hfalse. }
  apply Forall_cons in Hcs as [Hc Hcs].
  destruct (run c t') as [u|] eqn:Hstep; [cbn in Hrun|done].
  apply (IH u); try done; destruct c as [x y|k|k]; cbn in Hstep.
  - by destruct (Hc x y).
  - rewrite (Hfalse t' Hm Hi) in Hstep. by injection Hstep as <-.
  - rewrite finish_smoking_eq in Hstep. destruct (table_mutex t'); [lia|].
    by injection Hstep as <-.
  - by destruct (Hc x y).
  - rewrite (Hfalse t' Hm Hi) in Hstep. by injection Hstep as <-.
  - rewrite finish_smoking_eq in Hstep. destruct (table_mutex t'); [lia|].
    by injection Hstep as <-.
Qed.

(** On any table, at most one smoker can take what lies there. *)
Lemma one_eligible_smoker j k t tj tk :
  try_take j t = Returned true tj → try_take k t = Returned true tk → j = k.
Proof.
  intros (_ & Hj & _)%try_take_true_inv (_ & Hk & _)%try_take_true_inv.
  apply needed_inj. congruence.
Qed.

(** ** Sequences of calls *)

Lemma try_take_each_empty ks t :
  ingredients t = [] → List.filter returned_true (try_take_each ks t) = [].
Proof.
  intros Hempty. induction ks as [|k ks IH]; [done|]. cbn.
  by destruct (try_take_empty k t Hempty) as [-> | ->].
Qed.

Lemma try_take_each_once ks t :
  length (List.filter returned_true (try_take_each ks t)) ≤ 1.
Proof.
  induction ks as [|k ks IH]; cbn; [lia|].
  destruct (try_take_cases k t) as [H|[H|[H|[t' H]]]]; rewrite H; cbn; try done.
  rewrite try_take_each_empty; [done|].
  by apply try_take_true_inv in H as (_ & _ & _ & ->).
Qed.

(** C6. From the table that a [place_ingredients] call has left, whatever
    [try_take] calls follow, by whichever smokers and in whatever order,
    at most one of them returns [True]. *)
Theorem one_take_per_placement a b t t0 ks :
  place_ingredients a b t = Returned () t0 →
  length (List.filter returned_true (try_take_each ks t0)) ≤ 1.
Proof. intros _. apply try_take_each_once. Qed.

(** ** Reachable tables *)

Lemma run_cases c t t' :
  run c t = Some t' →
  0 < table_mutex t ∧
  match c with
  | PlaceIngredients a b =>
      agent_sem t = S (agent_sem t') ∧
      t' = mkTable (table_mutex t) (agent_sem t') (S (smoker_sem t)) [a; b]
             (smoker_status t) true
  | TryTake k =>
      t' = t ∨
      list_to_set (ingredients t) = needed k ∧
      smoker_status t !! k = Some false ∧
      t' = mkTable (table_mutex t) (S (agent_sem t)) (smoker_sem t) []
             (<[k := true]> (smoker_status t)) false
  | FinishSmoking k =>
      t' = mkTable (table_mutex t) (agent_sem t) (S (smoker_sem t))
             (ingredients t) (<[k := false]> (smoker_status t)) (table_busy t)
  end.
Proof.
  destruct c as [a b|k|k]; cbn.
  - rewrite place_ingredients_eq.
    destruct (agent_sem t), (table_mutex t); try done.
    intros [= <-]. cbn. split; [lia|done].
  - rewrite try_take_eq. destruct (table_mutex t); [done|].
    split; [lia|]. revert H. case_decide; [|intros [= <-]; by left].
    destruct (smoker_status t !! k) as [[]|]; intros [= <-]; auto.
  - rewrite finish_smoking_eq. destruct (table_mutex t); [done|].
    intros [= <-]. split; [lia|done].
Qed.

Section reachability.
Context (allowed : Table → call → Prop).

Lemma reachable_invariant (P : Table → Prop) :
  P Table_init →
  (∀ t c t', P t → allowed t c → run c t = Some t' → P t') →
  ∀ t, reachable allowed t → P t.
Proof. intros Hinit Hstep t. induction 1; eauto. Qed.

Lemma reachable_run_calls cs t t' :
  reachable allowed t → calls_allowed allowed cs t → run_calls cs t = Some t' →
  reachable allowed t'.
Proof.
  revert t. induction cs as [|c cs IH]; cbn; intros t Ht Hcs Hrun.
  { by injection Hrun as <-. }
  destruct Hcs as [Hc Hcs]. destruct (run c t) as [u|] eqn:Hstep; [|done].
  cbn in Hrun. apply (IH u); [|done..]. by apply reachable_call with t c.
Qed.

End reachability.

Lemma reachable_mono (allowed allowed' : Table → call → Prop) t :
  (∀ u c, allowed u c → allowed' u c) →
  reachable allowed t → reachable allowed' t.
Proof. intros Hsub. induction 1; econstructor; eauto. Qed.

Lemma busy_iff_nonempty_run c t t' :
  busy_iff_nonempty t → run c t = Some t' → busy_iff_nonempty t'.
Proof.
  unfold busy_iff_nonempty. intros Ht Hrun.
  apply run_cases in Hrun as [_ Hrun]. destruct c as [a b|k|k].
  - destruct Hrun as [_ ->]; cbn. done.
  - destruct Hrun as [->|(_ & _ & ->)]; cbn; [done|]. split; done.
  - by subst t'.
Qed.

Lemma insert_total (d : gmap Ingredient bool) k b :
  (∀ j, is_Some (d !! j)) → ∀ j, is_Some (<[k := b]> d !! j).
Proof.
  intros Hd j. destruct (decide (k = j)) as [->|];
    [rewrite lookup_insert_eq|rewrite lookup_insert_ne]; done.
Qed.

(** In every reachable table the mutex is free between two calls, the
    dictionary has its three entries, and [agent_sem] has a permit exactly
    when nothing lies on the table. *)
Lemma reachable_well_formed t :
  reachable any_call t →
  table_mutex t = 1 ∧ status_total t ∧ busy_iff_nonempty t ∧
  agent_sem t = (if table_busy t then 0 else 1).
Proof.
  intros Hreach. pattern t. eapply reachable_invariant; [| |exact Hreach]; clear.
  - split_and!; [done| |done..]. intros []; by eexists.
  - intros t c t' (Hm & Htot & Hbusy & Ha) _ Hrun.
    split_and!; [| |by eapply busy_iff_nonempty_run|];
      apply run_cases in Hrun as [_ Hrun]; destruct c as [a b|k|k].
    + by destruct Hrun as [_ ->].
    + by destruct Hrun as [->|(_ & _ & ->)].
    + by subst t'.
    + by destruct Hrun as [_ ->].
    + destruct Hrun as [->|(_ & _ & ->)]; [done|].
      intros j. by apply insert_total.
    + subst t'. intros j. by apply insert_total.
    + destruct Hrun as [Hsem ->]; cbn. destruct (table_busy t); lia.
    + destruct Hrun as [->|(Hset & _ & ->)]; [done|cbn].
      apply needed_nonempty, Hbusy in Hset. rewrite Hset in Ha. lia.
    + by subst t'.
Qed.

(** From a reachable table no call raises, and only a [place_ingredients]
    call on a busy table blocks. *)
Lemma reachable_call_returns t c :
  reachable any_call t →
  match c with
  | PlaceIngredients a b =>
      if table_busy t then place_ingredients a b t = Blocked
      else ∃ t', place_ingredients a b t = Returned () t'
  | TryTake k => ∃ b t', try_take k t = Returned b t'
  | FinishSmoking k => ∃ t', finish_smoking k t = Returned () t'
  end.
Proof.
  intros (Hm & Htot & _ & Ha)%reachable_well_formed. destruct c as [a b|k|k].
  - rewrite place_ingredients_eq, Ha, Hm. destruct (table_busy t); eauto.
  - apply try_take_returns; [lia|done].
  - rewrite finish_smoking_eq, Hm. eauto.
Qed.

(** ** The agent's draw *)

Lemma random_sample2_distinct {A} (population : list A) a b :
  NoDup population → (a, b) ∈ random_sample2 population →
  a ≠ b ∧ a ∈ population ∧ b ∈ population.
Proof.
  intros Hnodup Hin. unfold random_sample2 in Hin.
  apply list_elem_of_bind in Hin as ([i x] & Hin & Hix).
  apply list_elem_of_bind in Hin as ([j y] & Hin & Hjy).
  case_decide as Hij; [by apply elem_of_nil in Hin|].
  apply list_elem_of_singleton in Hin as [= -> ->].
  apply elem_of_lookup_imap in Hix as (i' & x' & [= -> ->] & Hi).
  apply elem_of_lookup_imap in Hjy as (j' & y' & [= -> ->] & Hj).
  split_and!.
  - intros ->. apply Hij. by eapply NoDup_lookup.
  - apply list_elem_of_lookup; eauto.
  - apply list_elem_of_lookup; eauto.
Qed.

Lemma random_sample2_INGREDIENTS :
  random_sample2 INGREDIENTS =
  [(Tobacco, Paper); (Tobacco, Matches); (Paper, Tobacco); (Paper, Matches);
   (Matches, Tobacco); (Matches, Paper)].
Proof. reflexivity. Qed.

Lemma NoDup_INGREDIENTS : NoDup INGREDIENTS.
Proof.
  unfold INGREDIENTS. repeat constructor; rewrite ?elem_of_cons, elem_of_nil;
    intros H; by repeat destruct H as [H|H].
Qed.

Lemma reachable_thread_any t : reachable thread_call t → reachable any_call t.
Proof. by apply reachable_mono. Qed.

(** ** Invariants of the table *)

(** C10. The new table satisfies, and every call of [place_ingredients],
    [try_take] and [finish_smoking] keeps, the invariant that [table_busy]
    is [True] exactly when the list [ingredients] is not empty; so it holds
    in every table that sequences of calls reach. *)
Theorem busy_iff_nonempty_invariant :
  busy_iff_nonempty Table_init ∧
  (∀ c t t', busy_iff_nonempty t → run c t = Some t' → busy_iff_nonempty t') ∧
  (∀ t, reachable any_call t → busy_iff_nonempty t).
Proof.
  split_and!.
  - done.
  - apply busy_iff_nonempty_run.
  - intros t Ht. by apply reachable_well_formed in Ht as (_ & _ & ? & _).
Qed.

(** C7. In every table reached from the new one by calls of the threads
    (the agent places what [random.sample(INGREDIENTS, 2)] drew), the
    ingredients on the table, when there are any, are exactly two, and they
    differ. *)
Theorem table_holds_two_distinct t :
  reachable thread_call t → ingredients t ≠ [] →
  ∃ a b, ingredients t = [a; b] ∧ a ≠ b.
Proof.
  intros Hreach. pattern t. eapply reachable_invariant; [| |exact Hreach]; clear.
  - done.
  - intros t c t' IH Hc Hrun. apply run_cases in Hrun as [_ Hrun].
    destruct c as [a b|k|k].
    + destruct Hrun as [_ ->]; cbn. intros _. exists a, b. split; [done|].
      by apply (random_sample2_distinct INGREDIENTS a b NoDup_INGREDIENTS).
    + by destruct Hrun as [->|(_ & _ & ->)].
    + by subst t'.
Qed.

(** ** How many smokers smoke *)

Lemma nobody_smoking_init : nobody_smoking Table_init.
Proof. by intros []. Qed.

(** C1, as stated, fails: the agent's permit comes back as soon as a pair
    has been taken, so the agent places the next pair, and a second smoker
    takes it, while the first one still smokes. *)
Lemma two_smokers_at_once :
  reachable thread_call table_two_smoking ∧
  ¬ at_most_one_smoking table_two_smoking.
Proof.
  split.
  - apply (reachable_run_calls _
             [PlaceIngredients Tobacco Paper; TryTake Matches;
              PlaceIngredients Paper Matches; TryTake Tobacco] Table_init).
    + apply reachable_init.
    + vm_compute. repeat split; repeat constructor.
    + reflexivity.
  - intros Hone. by pose proof (Hone Tobacco Matches eq_refl eq_refl).
Qed.

(** C1, amended. When [place_ingredients] is called only while no entry of
    [smoker_status] is [True], at most one entry of [smoker_status] is
    [True] in every table that the calls reach from the new one. *)
Theorem one_smoker_when_agent_waits t :
  reachable place_when_nobody_smokes t → at_most_one_smoking t.
Proof.
  intros Hreach.
  enough (at_most_one_smoking t ∧ (ingredients t ≠ [] → nobody_smoking t)) by tauto.
  pattern t. eapply reachable_invariant; [| |exact Hreach]; clear.
  - split; [|intros _; apply nobody_smoking_init].
    intros j k Hj. by destruct (nobody_smoking_init j).
  - intros t c t' [Hone Hnone] Hc Hrun. apply run_cases in Hrun as [_ Hrun].
    destruct c as [a b|k|k].
    + destruct Hrun as [_ ->]; cbn in *. done.
    + destruct Hrun as [->|(Hset & _ & ->)]; [done|].
      apply needed_nonempty in Hset. specialize (Hnone Hset).
      split; [|done]. intros i j; cbn.
      destruct (decide (k = i)) as [<-|], (decide (k = j)) as [<-|];
        rewrite ?lookup_insert_eq, ?lookup_insert_ne by done; try done.
      * intros _ Hj. by destruct (Hnone j).
      * intros Hi. by destruct (Hnone i).
      * intros Hi. by destruct (Hnone i).
    + subst t'. split.
      * intros i j; cbn.
        destruct (decide (k = i)) as [<-|], (decide (k = j)) as [<-|];
          rewrite ?lookup_insert_eq, ?lookup_insert_ne by done; try done.
        exact (Hone i j).
      * intros Hi j. specialize (Hnone Hi j). cbn.
        destruct (decide (k = j)) as [<-|];
          rewrite ?lookup_insert_eq, ?lookup_insert_ne by done; done.
Qed.

(** ** The theorems at work on particular tables *)

Lemma try_take_true_iff_witness :
  0 < table_mutex table_tobacco_paper ∧
  ((∃ t', try_take Matches table_tobacco_paper = Returned true t') ↔
   list_to_set (ingredients table_tobacco_paper)
     =@{gset Ingredient} list_to_set INGREDIENTS ∖ {[Matches]} ∧
   smoker_status table_tobacco_paper !! Matches = Some false).
Proof.
  split; [cbn; lia|].
  apply (try_take_true_iff Matches table_tobacco_paper). cbn; lia.
Defined.

Lemma try_take_true_effect_witness :
  try_take Matches table_tobacco_paper = Returned true table_matches_smoking ∧
  ingredients table_matches_smoking = [] ∧
  table_busy table_matches_smoking = false ∧
  smoker_status table_matches_smoking !! Matches = Some true ∧
  agent_sem table_matches_smoking = S (agent_sem table_tobacco_paper) ∧
  (∀ j, j ≠ Matches →
        smoker_status table_matches_smoking !! j
        = smoker_status table_tobacco_paper !! j) ∧
  smoker_sem table_matches_smoking = smoker_sem table_tobacco_paper ∧
  table_mutex table_matches_smoking = table_mutex table_tobacco_paper.
Proof.
  split; [reflexivity|].
  apply (try_take_true_effect Matches table_tobacco_paper table_matches_smoking).
  reflexivity.
Defined.

Lemma try_take_false_unchanged_witness :
  try_take Paper table_tobacco_paper = Returned false table_tobacco_paper ∧
  table_tobacco_paper = table_tobacco_paper.
Proof.
  split; [reflexivity|].
  apply (try_take_false_unchanged Paper table_tobacco_paper table_tobacco_paper).
  reflexivity.
Defined.

Lemma try_take_twice_witness :
  try_take Matches table_tobacco_paper = Returned true table_matches_smoking ∧
  try_take Matches table_matches_smoking = Returned false table_matches_smoking.
Proof.
  split; [reflexivity|].
  apply (try_take_twice Matches table_tobacco_paper table_matches_smoking).
  reflexivity.
Defined.

Lemma place_ingredients_effect_witness :
  Tobacco ≠ Paper ∧
  place_ingredients Tobacco Paper Table_init = Returned () table_tobacco_paper ∧
  (∃ t', place_ingredients Tobacco Paper Table_init = Returned () t') ∧
  ingredients table_tobacco_paper = [Tobacco; Paper] ∧
  table_busy table_tobacco_paper = true ∧
  smoker_sem table_tobacco_paper = S (smoker_sem Table_init) ∧
  S (agent_sem table_tobacco_paper) = agent_sem Table_init ∧
  smoker_status table_tobacco_paper = smoker_status Table_init ∧
  table_mutex table_tobacco_paper = table_mutex Table_init.
Proof.
  assert (Tobacco ≠ Paper) as Hne by discriminate.
  split; [exact Hne|]. split; [reflexivity|].
  split.
  - apply (proj1 (place_ingredients_effect Tobacco Paper Table_init Hne));
      cbn; lia.
  - apply (proj2 (place_ingredients_effect Tobacco Paper Table_init Hne)).
    reflexivity.
Defined.

Lemma place_same_never_taken_witness :
  place_ingredients Tobacco Tobacco Table_init = Returned () table_tobacco_twice ∧
  (∀ k, try_take k table_tobacco_twice = Returned false table_tobacco_twice) ∧
  (∀ cs t'',
     Forall (λ c, ∀ x y, c ≠ PlaceIngredients x y) cs →
     run_calls cs table_tobacco_twice = Some t'' →
     ingredients t'' = [Tobacco; Tobacco] ∧
     ∀ k, try_take k t'' = Returned false t'').
Proof.
  split; [reflexivity|].
  apply (place_same_never_taken Tobacco Table_init table_tobacco_twice).
  reflexivity.
Defined.

Lemma one_take_per_placement_witness :
  place_ingredients Tobacco Paper Table_init = Returned () table_tobacco_paper ∧
  length (List.filter returned_true
            (try_take_each [Paper; Matches; Tobacco; Matches] table_tobacco_paper))
  ≤ 1.
Proof.
  split; [reflexivity|].
  apply (one_take_per_placement Tobacco Paper Table_init table_tobacco_paper).
  reflexivity.
Defined.

Lemma busy_iff_nonempty_invariant_witness :
  busy_iff_nonempty Table_init ∧
  run (PlaceIngredients Tobacco Paper) Table_init = Some table_tobacco_paper ∧
  busy_iff_nonempty table_tobacco_paper.
Proof.
  destruct busy_iff_nonempty_invariant as (Hinit & Hkeep & _).
  split; [exact Hinit|]. split; [reflexivity|].
  apply (Hkeep (PlaceIngredients Tobacco Paper) Table_init table_tobacco_paper);
    [exact Hinit|reflexivity].
Defined.

Lemma table_holds_two_distinct_witness :
  reachable thread_call table_paper_matches ∧
  ingredients table_paper_matches ≠ [] ∧
  ∃ a b, ingredients table_paper_matches = [a; b] ∧ a ≠ b.
Proof.
  assert (reachable thread_call table_paper_matches) as Hreach.
  { apply (reachable_run_calls _
             [PlaceIngredients Tobacco Paper; TryTake Matches;
              PlaceIngredients Paper Matches] Table_init).
    - apply reachable_init.
    - vm_compute. repeat split; repeat constructor.
    - reflexivity. }
  assert (ingredients table_paper_matches ≠ []) as Hne by discriminate.
  split; [exact Hreach|]. split; [exact Hne|].
  apply (table_holds_two_distinct table_paper_matches Hreach Hne).
Defined.

Lemma one_smoker_when_agent_waits_witness :
  reachable place_when_nobody_smokes table_matches_smoking ∧
  at_most_one_smoking table_matches_smoking.
Proof.
  assert (reachable place_when_nobody_smokes table_matches_smoking) as Hreach.
  { apply (reachable_run_calls _
             [PlaceIngredients Tobacco Paper; TryTake Matches] Table_init).
    - apply reachable_init.
    - split; [apply nobody_smoking_init|]. vm_compute. done.
    - reflexivity. }
  split; [exact Hreach|].
  apply (one_smoker_when_agent_waits table_matches_smoking Hreach).
Defined.

(** ** [finish_smoking] *)

(** X1. [finish_smoking k] returns whenever the mutex is free, whether or
    not the smoker was smoking: it sets [smoker_status[k]] to [False], adds
    one permit to [smoker_sem], and leaves the other entries, the table and
    [agent_sem] as they were. *)
Theorem finish_smoking_effect k t :
  0 < table_mutex t →
  ∃ t', finish_smoking k t = Returned () t' ∧
        smoker_status t' !! k = Some false ∧
        (∀ j, j ≠ k → smoker_status t' !! j = smoker_status t !! j) ∧
        smoker_sem t' = S (smoker_sem t) ∧
        ingredients t' = ingredients t ∧ table_busy t' = table_busy t ∧
        agent_sem t' = agent_sem t ∧ table_mutex t' = table_mutex t.
Proof.
  intros Hm. rewrite finish_smoking_eq. destruct (table_mutex t) eqn:E; [lia|].
  eexists; split; [done|]. cbn. split_and!; try done.
  - apply lookup_insert_eq.
  - intros j Hj. by apply lookup_insert_ne.
Qed.

Lemma finish_smoking_effect_witness :
  0 < table_mutex table_matches_smoking ∧
  ∃ t', finish_smoking Matches table_matches_smoking = Returned () t' ∧
        smoker_status t' !! Matches = Some false ∧
        (∀ j, j ≠ Matches →
              smoker_status t' !! j = smoker_status table_matches_smoking !! j) ∧
        smoker_sem t' = S (smoker_sem table_matches_smoking) ∧
        ingredients t' = ingredients table_matches_smoking ∧
        table_busy t' = table_busy table_matches_smoking ∧
        agent_sem t' = agent_sem table_matches_smoking ∧
        table_mutex t' = table_mutex table_matches_smoking.
Proof.
  assert (0 < table_mutex table_matches_smoking) as Hm by (cbn; lia).
  split; [exact Hm|].
  apply (finish_smoking_effect Matches table_matches_smoking Hm).
Defined.

(** ** Who takes a pair *)

Lemma pair_needed a b k :
  a ≠ b → list_to_set [a; b] = needed k ↔ k ≠ a ∧ k ≠ b.
Proof.
  intros Hab. rewrite on_table_needed. split.
  - intros H. split; intros ->.
    + by apply (H a); [apply elem_of_cons; left|].
    + by apply (H b); [apply elem_of_cons; right; apply elem_of_cons; left|].
  - intros [Ha Hb] x. rewrite !elem_of_cons, elem_of_nil.
    destruct a, b, k, x; intuition congruence.
Qed.

(** X2. After [place_ingredients a b] with two different ingredients,
    [try_take k] returns [True] exactly for the smoker whose ingredient is
    neither [a] nor [b], provided that smoker is not smoking. *)
Theorem placed_pair_for_third a b k t t' :
  a ≠ b → place_ingredients a b t = Returned () t' →
  (∃ t'', try_take k t' = Returned true t'') ↔
  k ≠ a ∧ k ≠ b ∧ smoker_status t !! k = Some false.
Proof.
  intros Hab Hplace. rewrite place_ingredients_eq in Hplace.
  destruct (agent_sem t), (table_mutex t); try done.
  injection Hplace as <-. rewrite try_take_eq; cbn.
  pose proof (pair_needed a b k Hab) as Hpair. case_decide as Hset.
  - destruct (smoker_status t !! k) as [[]|]; split;
      try (by intros [? ?]); try (by intros (_ & _ & ?)).
    + intros _. by apply Hpair in Hset as [? ?].
    + eauto.
  - split; [by intros [? ?]|]. intros (Ha & Hb & _). destruct Hset. by apply Hpair.
Qed.

Lemma placed_pair_for_third_witness :
  Tobacco ≠ Paper ∧
  place_ingredients Tobacco Paper Table_init = Returned () table_tobacco_paper ∧
  ((∃ t'', try_take Matches table_tobacco_paper = Returned true t'') ↔
   Matches ≠ Tobacco ∧ Matches ≠ Paper ∧
   smoker_status Table_init !! Matches = Some false).
Proof.
  assert (Tobacco ≠ Paper) as Hne by discriminate.
  split; [exact Hne|]. split; [reflexivity|].
  apply (placed_pair_for_third Tobacco Paper Matches Table_init
           table_tobacco_paper Hne).
  reflexivity.
Defined.

Lemma one_eligible_smoker_witness :
  try_take Matches table_tobacco_paper = Returned true table_matches_smoking ∧
  Matches = Matches.
Proof.
  split; [reflexivity|].
  apply (one_eligible_smoker Matches Matches table_tobacco_paper
           table_matches_smoking table_matches_smoking); reflexivity.
Defined.

(** X4. A smoker that has taken a pair and finished smoking takes the next
    pair that suits it: after a successful [try_take k] and
    [finish_smoking k], [place_ingredients a b] with the two ingredients
    that [k] needs returns, and [try_take k] returns [True] again. *)
Theorem smoker_takes_again k a b t t1 t2 :
  try_take k t = Returned true t1 →
  finish_smoking k t1 = Returned () t2 →
  list_to_set [a; b] = needed k →
  ∃ t3 t4, place_ingredients a b t2 = Returned () t3 ∧
           try_take k t3 = Returned true t4.
Proof.
  intros (Hm & _ & _ & ->)%try_take_true_inv Hfin Hset.
  rewrite finish_smoking_eq in Hfin; cbn in Hfin.
  destruct (table_mutex t) as [|m] eqn:E; [lia|]. injection Hfin as <-.
  rewrite place_ingredients_eq; cbn. eexists. eexists. split; [done|].
  rewrite try_take_eq; cbn. rewrite decide_True by done.
  by rewrite lookup_insert_eq.
Qed.

Lemma smoker_takes_again_witness :
  try_take Matches table_tobacco_paper = Returned true table_matches_smoking ∧
  finish_smoking Matches table_matches_smoking
  = Returned () (mkTable 1 1 2 [] (smoker_status Table_init) false) ∧
  list_to_set [Paper; Tobacco] = needed Matches ∧
  ∃ t3 t4,
    place_ingredients Paper Tobacco (mkTable 1 1 2 [] (smoker_status Table_init) false)
    = Returned () t3 ∧
    try_take Matches t3 = Returned true t4.
Proof.
  assert (list_to_set [Paper; Tobacco] = needed Matches) as Hset
    by (apply pair_needed; done).
  split; [reflexivity|]. split; [reflexivity|]. split; [exact Hset|].
  apply (smoker_takes_again Matches Paper Tobacco table_tobacco_paper
           table_matches_smoking
           (mkTable 1 1 2 [] (smoker_status Table_init) false));
    [reflexivity|reflexivity|exact Hset].
Defined.

(** ** One pair at a time *)

(** X5. In every table that sequences of calls reach, [agent_sem] holds one
    permit while the table is empty and none while a pair lies on it, so
    that [place_ingredients] blocks exactly while a pair lies on the
    table. *)
Theorem place_blocks_while_pair_waits t a b :
  reachable any_call t →
  agent_sem t = (if ingredients t is [] then 1 else 0) ∧
  (place_ingredients a b t = Blocked ↔ ingredients t ≠ []).
Proof.
  intros (Hm & _ & Hbusy & Ha)%reachable_well_formed.
  rewrite place_ingredients_eq, Hm, Ha. unfold busy_iff_nonempty in Hbusy.
  destruct (table_busy t), (ingredients t) as [|x l]; split; try done.
  - by destruct (proj1 Hbusy).
  - by destruct (proj1 Hbusy).
  - by assert (false = true) by by apply Hbusy.
  - split; [done|]. by assert (false = true) by by apply Hbusy.
Qed.

Lemma place_blocks_while_pair_waits_witness :
  reachable any_call table_tobacco_paper ∧
  agent_sem table_tobacco_paper
  = (if ingredients table_tobacco_paper is [] then 1 else 0) ∧
  (place_ingredients Paper Matches table_tobacco_paper = Blocked ↔
   ingredients table_tobacco_paper ≠ []).
Proof.
  assert (reachable any_call table_tobacco_paper) as Hreach.
  { apply (reachable_call any_call Table_init (PlaceIngredients Tobacco Paper));
      [apply reachable_init|exact I|reflexivity]. }
  split; [exact Hreach|].
  apply (place_blocks_while_pair_waits table_tobacco_paper Paper Matches Hreach).
Defined.

(** X6. In every table that sequences of calls reach, the dictionary
    [smoker_status] has exactly the three keys of [INGREDIENTS], and
    [try_take] returns: it neither raises [KeyError] nor blocks. *)
Theorem reachable_no_KeyError t k :
  reachable any_call t →
  dom (smoker_status t) = list_to_set INGREDIENTS ∧
  ∃ b t', try_take k t = Returned b t'.
Proof.
  intros (Hm & Htot & _)%reachable_well_formed. split.
  - apply set_eq. intros x. rewrite elem_of_dom, elem_of_list_to_set.
    split; [|by intros _].
    intros _. unfold INGREDIENTS. rewrite !elem_of_cons. destruct x; auto.
  - apply try_take_returns; [lia|done].
Qed.

Lemma reachable_no_KeyError_witness :
  reachable any_call table_tobacco_paper ∧
  dom (smoker_status table_tobacco_paper) = list_to_set INGREDIENTS ∧
  ∃ b t', try_take Matches table_tobacco_paper = Returned b t'.
Proof.
  assert (reachable any_call table_tobacco_paper) as Hreach.
  { apply (reachable_call any_call Table_init (PlaceIngredients Tobacco Paper));
      [apply reachable_init|exact I|reflexivity]. }
  split; [exact Hreach|].
  apply (reachable_no_KeyError table_tobacco_paper Matches Hreach).
Defined.

(** ** What the agent draws *)

(** X7. Whatever pair [random.sample(INGREDIENTS, 2)] gives the agent, its
    two ingredients differ and exactly one smoker needs them; and for every
    smoker there is a draw that it needs. *)
Theorem agent_draw_suits_one_smoker :
  (∀ a b, (a, b) ∈ random_sample2 INGREDIENTS →
          a ≠ b ∧
          ∃ k, list_to_set [a; b] = needed k ∧
               ∀ j, list_to_set [a; b] = needed j → j = k) ∧
  (∀ k, ∃ a b, (a, b) ∈ random_sample2 INGREDIENTS ∧
               list_to_set [a; b] = needed k).
Proof.
  split.
  - intros a b Hin.
    destruct (random_sample2_distinct INGREDIENTS a b NoDup_INGREDIENTS Hin)
      as (Hab & _ & _).
    split; [done|].
    assert (∃ k, k ≠ a ∧ k ≠ b) as (k & Ha & Hb).
    { destruct a, b; try done;
        first [by exists Tobacco | by exists Paper | by exists Matches]. }
    exists k. split; [by apply pair_needed|].
    intros j Hj. apply needed_inj. rewrite <-Hj. by apply pair_needed.
  - intros k. rewrite random_sample2_INGREDIENTS.
    destruct k;
      [exists Paper, Matches|exists Tobacco, Matches|exists Tobacco, Paper];
      (split; [repeat constructor|by apply pair_needed]).
Qed.

Lemma agent_draw_suits_one_smoker_witness :
  (Paper, Tobacco) ∈ random_sample2 INGREDIENTS ∧
  Paper ≠ Tobacco ∧
  ∃ k, list_to_set [Paper; Tobacco] = needed k ∧
       ∀ j, list_to_set [Paper; Tobacco] = needed j → j = k.
Proof.
  assert ((Paper, Tobacco) ∈ random_sample2 INGREDIENTS) as Hin.
  { rewrite random_sample2_INGREDIENTS. repeat constructor. }
  split; [exact Hin|].
  apply (proj1 agent_draw_suits_one_smoker Paper Tobacco Hin).
Defined.

(** ** A turn of a smoker *)

Lemma smoker_iteration_eq k t :
  smoker_iteration k t =
  match smoker_sem t with
  | 0 => Blocked
  | S n =>
      match try_take k (set_smoker_sem n t) with
      | Returned true t' => Returned true t'
      | Returned false t' => Returned false (set_smoker_sem (S (smoker_sem t')) t')
      | Raised e t' => Raised e t'
      | Blocked => Blocked
      end
  end.
Proof.
  unfold smoker_iteration, acquire, mbind, M_bind; cbn.
  destruct (smoker_sem t); [done|].
  by destruct (try_take k _) as [[]| |].
Qed.

(** X8. A turn of a smoker's loop in which [try_take] fails gives the
    permit of [smoker_sem] back: the table, with all its permits, is as it
    was before the turn. *)
Theorem smoker_iteration_hands_back k t t' :
  smoker_iteration k t = Returned false t' → t' = t.
Proof.
  rewrite smoker_iteration_eq. destruct (smoker_sem t) as [|n] eqn:E; [done|].
  destruct (try_take_cases k (set_smoker_sem n t)) as [H|[H|[H|[u H]]]];
    rewrite H; try done.
  intros [= <-]. destruct t; cbn in *. by subst.
Qed.

(** X9. A turn of a smoker's loop in which [try_take] succeeds trades one
    permit of [smoker_sem] for one of [agent_sem]: it empties the table and
    marks the smoker as smoking. *)
Theorem smoker_iteration_takes k t t' :
  smoker_iteration k t = Returned true t' →
  smoker_sem t = S (smoker_sem t') ∧ agent_sem t' = S (agent_sem t) ∧
  list_to_set (ingredients t) = needed k ∧
  smoker_status t !! k = Some false ∧
  ingredients t' = [] ∧ table_busy t' = false ∧
  smoker_status t' = <[k := true]> (smoker_status t).
Proof.
  rewrite smoker_iteration_eq. destruct (smoker_sem t) as [|n] eqn:E; [done|].
  destruct (try_take k (set_smoker_sem n t)) as [[] u| |] eqn:Htake; try done.
  intros [= <-]. by apply try_take_true_inv in Htake as (_ & ? & ? & ->).
Qed.

(** X10. A turn of a smoker's loop blocks exactly when [smoker_sem] has no
    permit, the mutex being free. *)
Theorem smoker_iteration_blocks k t :
  0 < table_mutex t → smoker_iteration k t = Blocked ↔ smoker_sem t = 0.
Proof.
  intros Hm. rewrite smoker_iteration_eq.
  destruct (smoker_sem t) as [|n]; [done|]. split; [|done].
  rewrite try_take_eq; cbn. destruct (table_mutex t); [lia|].
  case_decide; [|done]. by destruct (smoker_status t !! k) as [[]|].
Qed.

Lemma smoker_iteration_hands_back_witness :
  smoker_iteration Paper table_tobacco_paper = Returned false table_tobacco_paper ∧
  table_tobacco_paper = table_tobacco_paper.
Proof.
  split; [reflexivity|].
  apply (smoker_iteration_hands_back Paper table_tobacco_paper table_tobacco_paper).
  reflexivity.
Defined.

Lemma smoker_iteration_takes_witness :
  smoker_iteration Matches table_tobacco_paper
  = Returned true (set_smoker_sem 0 table_matches_smoking) ∧
  smoker_sem table_tobacco_paper
  = S (smoker_sem (set_smoker_sem 0 table_matches_smoking)) ∧
  agent_sem (set_smoker_sem 0 table_matches_smoking)
  = S (agent_sem table_tobacco_paper) ∧
  list_to_set (ingredients table_tobacco_paper) = needed Matches ∧
  smoker_status table_tobacco_paper !! Matches = Some false ∧
  ingredients (set_smoker_sem 0 table_matches_smoking) = [] ∧
  table_busy (set_smoker_sem 0 table_matches_smoking) = false ∧
  smoker_status (set_smoker_sem 0 table_matches_smoking)
  = <[Matches := true]> (smoker_status table_tobacco_paper).
Proof.
  split; [reflexivity|].
  apply (smoker_iteration_takes Matches table_tobacco_paper
           (set_smoker_sem 0 table_matches_smoking)).
  reflexivity.
Defined.

Lemma smoker_iteration_blocks_witness :
  0 < table_mutex Table_init ∧
  (smoker_iteration Matches Table_init = Blocked ↔ smoker_sem Table_init = 0).
Proof.
  assert (0 < table_mutex Table_init) as Hm by (cbn; lia).
  split; [exact Hm|].
  apply (smoker_iteration_blocks Matches Table_init Hm).
Defined.

(** ** The program's threads *)

(** The methods are their parts, in order. *)
Lemma place_ingredients_parts first second :
  place_ingredients first second
  = (acquire AgentSem ;; place_section first second ;; release SmokerSem).
Proof. reflexivity. Qed.

Lemma finish_smoking_parts k :
  finish_smoking k = (finish_section k ;; release SmokerSem).
Proof. reflexivity. Qed.

Lemma place_section_eq first second t :
  place_section first second t =
  match table_mutex t with
  | 0 => Blocked
  | S _ =>
      Returned ()
        (mkTable (table_mutex t) (agent_sem t) (smoker_sem t) [first; second]
           (smoker_status t) true)
  end.
Proof. destruct t as [[|m] a s i d b]; reflexivity. Qed.

Lemma finish_section_eq k t :
  finish_section k t =
  match table_mutex t with
  | 0 => Blocked
  | S _ =>
      Returned ()
        (mkTable (table_mutex t) (agent_sem t) (smoker_sem t) (ingredients t)
           (<[k := false]> (smoker_status t)) (table_busy t))
  end.
Proof. destruct t as [[|m] a s i d b]; reflexivity. Qed.

Lemma acquire_eq s t :
  acquire s t =
  match permits s t with
  | 0 => Blocked
  | S n => Returned () (set_permits s n t)
  end.
Proof. reflexivity. Qed.

Lemma release_eq s t :
  release s t = Returned () (set_permits s (S (permits s t)) t).
Proof. reflexivity. Qed.

Lemma step_thread_inv i choice sys sys' :
  step_thread i choice sys = Some sys' →
  ∃ before th after next,
    threads sys = before ++ th :: after ∧ length before = i ∧
    thread_step th (table sys) !! choice = Some next ∧
    sys' = mkSystem (before ++ next.1 ++ after) next.2.
Proof.
  unfold step_thread. intros Hstep.
  destruct (threads sys !! i) as [th|] eqn:Hth; [cbn in Hstep|done].
  destruct (thread_step th (table sys) !! choice) as [next|] eqn:Hnext;
    [cbn in Hstep|done].
  injection Hstep as <-.
  exists (take i (threads sys)), th, (drop (S i) (threads sys)), next.
  split_and!; try done.
  - by rewrite take_drop_middle.
  - apply length_take_le. apply lookup_lt_Some in Hth. lia.
Qed.

Lemma step_thread_intro before th after next choice tb :
  thread_step th tb !! choice = Some next →
  step_thread (length before) choice (mkSystem (before ++ th :: after) tb)
  = Some (mkSystem (before ++ next.1 ++ after) next.2).
Proof.
  intros Hnext. unfold step_thread; cbn.
  rewrite list_lookup_middle by done. cbn. rewrite Hnext. cbn.
  rewrite take_app_length.
  replace (S (length before)) with (length (before ++ [th]))
    by (rewrite length_app; cbn; lia).
  by rewrite (cons_middle th before after), (app_assoc before [th] after),
    drop_app_length.
Qed.

Lemma sum_list_with_middle {A} (w : A → nat) before x after :
  sum_list_with w (before ++ x :: after)
  = sum_list_with w before + w x + sum_list_with w after.
Proof. rewrite sum_list_with_app. cbn. lia. Qed.

Lemma sum_list_with_replace {A} (w : A → nat) before xs after :
  sum_list_with w (before ++ xs ++ after)
  = sum_list_with w before + sum_list_with w xs + sum_list_with w after.
Proof. rewrite !sum_list_with_app. lia. Qed.

Lemma sum_list_with_pos {A} (w : A → nat) l :
  0 < sum_list_with w l → ∃ before x after, l = before ++ x :: after ∧ 0 < w x.
Proof.
  induction l as [|y l IH]; cbn; [lia|]. intros Hpos.
  destruct (w y) as [|n] eqn:Hy.
  - destruct IH as (before & x & after & -> & Hx); [lia|].
    by exists (y :: before), x, after.
  - exists [], y, l. split; [done|lia].
Qed.

Lemma sys_invariant_main : sys_invariant main.
Proof.
  split; cbn; try done.
  - intros []; by eexists.
  - intros []; split; (done || lia).
  - by intros [].
  - repeat constructor.
Qed.

(** ** What holds in every state of the program *)

Lemma lookup_singleton_list_inv {A} (x y : A) n : [x] !! n = Some y → y = x.
Proof. destruct n as [|[]]; cbn; congruence. Qed.

Ltac sums :=
  rewrite ?sum_list_with_middle, ?sum_list_with_replace in *;
  cbn [sum_list_with holds_agent_permit holds_smoker_permit smokes is_agent
       is_smoker] in *.

Lemma sys_invariant_step sys i choice sys' :
  sys_invariant sys → step_thread i choice sys = Some sys' → sys_invariant sys'.
Proof.
  intros Hinv Hstep.
  apply step_thread_inv in Hstep as (before & th & after & next & Hths & _ & Hnext & ->).
  destruct sys as [ths tb]; cbn in *; subst ths.
  destruct Hinv as [Hm Htot Hbusy Hagent Hwake Hsmokes Hone Hsmoker Hdraw]; cbn in *.
  apply Forall_app in Hdraw as [Hdraw1 Hdraw2].
  apply Forall_cons in Hdraw2 as [Hdraw2 Hdraw3].
  destruct th as [[|a b|a b|]|k []|k []]; unfold thread_step in Hnext;
    rewrite ?acquire_eq, ?release_eq, ?place_section_eq, ?finish_section_eq, ?try_take_eq in Hnext; cbn [permits set_permits] in Hnext.
  - (* AgentSample *)
    apply list_lookup_fmap_Some in Hnext as ([a b] & -> & Hin%list_elem_of_lookup_2).
    cbn in *. split; cbn; sums; try done.
    + intros j. specialize (Hsmokes j). by sums.
    + intros j. specialize (Hsmoker j). by sums.
    + apply Forall_app; split; [done|]. by apply Forall_cons.
  - (* AgentAcquire *)
    destruct (agent_sem tb) as [|n] eqn:Ea; cbn in Hnext; [done|].
    apply lookup_singleton_list_inv in Hnext as ->. cbn.
    split; cbn; sums; try done.
    + lia.
    + intros j. specialize (Hsmokes j). by sums.
    + intros j. specialize (Hsmoker j). by sums.
    + apply Forall_app; split; [done|]. by apply Forall_cons.
  - (* AgentPlace *)
    rewrite Hm in Hnext; cbn in Hnext.
    apply lookup_singleton_list_inv in Hnext as ->. cbn.
    split; cbn; sums; try done.
    + lia.
    + lia.
    + intros j. specialize (Hsmokes j). by sums.
    + intros j. specialize (Hsmoker j). by sums.
    + apply Forall_app; split; [done|]. by apply Forall_cons.
  - (* AgentSignal *)
    cbn in Hnext.
    apply lookup_singleton_list_inv in Hnext as ->. cbn.
    split; cbn; sums; try done.
    + intros Hne. specialize (Hwake Hne). lia.
    + intros j. specialize (Hsmokes j). by sums.
    + intros j. specialize (Hsmoker j). by sums.
    + apply Forall_app; split; [done|]. by apply Forall_cons.
  - (* SmokerAcquire *)
    destruct (smoker_sem tb) as [|n] eqn:Es; cbn in Hnext; [done|].
    apply lookup_singleton_list_inv in Hnext as ->. cbn.
    split; cbn; sums; try done.
    + intros Hne. specialize (Hwake Hne). lia.
    + intros j. specialize (Hsmokes j). by sums.
    + intros j. specialize (Hsmoker j). by sums.
    + apply Forall_app; split; [done|]. by apply Forall_cons.
  - (* SmokerTryTake *)
    rewrite Hm in Hnext. case_decide as Hset.
    + destruct (Htot k) as [smoking Hk]. rewrite Hk in Hnext.
      destruct smoking; cbn in Hnext;
        apply lookup_singleton_list_inv in Hnext as ->; cbn.
      * split; cbn; sums; try done.
        -- intros j. specialize (Hsmokes j). by sums.
        -- intros j. specialize (Hsmoker j). by sums.
        -- apply Forall_app; split; [done|]. by apply Forall_cons.
      * pose proof (needed_nonempty _ _ Hset) as Hne.
        apply Hbusy in Hne. rewrite Hne in Hagent.
        split; cbn; sums; try done.
        -- intros j; by apply insert_total.
        -- lia.
        -- intros j. specialize (Hsmokes j). sums.
           destruct (decide (k = j)) as [<-|Hkj].
           ++ rewrite lookup_insert_eq. rewrite Hk in Hsmokes.
              destruct Hsmokes as [[= Hb] Hle]. symmetry in Hb.
              apply bool_decide_eq_false in Hb.
              split; [|lia]. f_equal. symmetry. apply bool_decide_eq_true. lia.
           ++ by rewrite lookup_insert_ne.
        -- intros j. specialize (Hsmoker j). by sums.
        -- apply Forall_app; split; [done|]. by apply Forall_cons.
    + cbn in Hnext. apply lookup_singleton_list_inv in Hnext as ->; cbn.
      split; cbn; sums; try done.
      * intros j. specialize (Hsmokes j). by sums.
      * intros j. specialize (Hsmoker j). by sums.
      * apply Forall_app; split; [done|]. by apply Forall_cons.
  - (* SmokerStart *)
    apply lookup_singleton_list_inv in Hnext as ->; cbn.
    split; cbn; sums; try done.
    + intros j. specialize (Hsmokes j). sums.
      destruct (decide (k = j)); split; try (by destruct Hsmokes); try lia.
      all: destruct Hsmokes as [-> _]; f_equal; apply bool_decide_ext; lia.
    + intros j. specialize (Hsmoker j). sums. lia.
    + apply Forall_app; split; [done|].
      apply Forall_cons_2; [done|]. by apply Forall_cons_2.
  - (* SmokerRelease *)
    cbn in Hnext. apply lookup_singleton_list_inv in Hnext as ->. cbn.
    split; cbn; sums; try done.
    + intros Hne. specialize (Hwake Hne). lia.
    + intros j. specialize (Hsmokes j). by sums.
    + intros j. specialize (Hsmoker j). by sums.
    + apply Forall_app; split; [done|]. by apply Forall_cons.
  - (* SmokeFinish *)
    rewrite Hm in Hnext. cbn in Hnext.
    apply lookup_singleton_list_inv in Hnext as ->. cbn.
    split; cbn; sums; try done.
    + intros j; by apply insert_total.
    + intros Hne. specialize (Hwake Hne). lia.
    + intros j. specialize (Hsmokes j). sums.
      destruct (decide (k = j)) as [<-|Hkj].
      * rewrite lookup_insert_eq. destruct Hsmokes as [_ Hle].
        split; [|lia]. f_equal. symmetry. apply bool_decide_eq_false. lia.
      * by rewrite lookup_insert_ne.
    + intros j. specialize (Hsmoker j). by sums.
    + apply Forall_app; split; [done|]. by apply Forall_cons.
  - (* SmokeSignal *)
    cbn in Hnext. apply lookup_singleton_list_inv in Hnext as ->. cbn.
    split; cbn; sums; rewrite ?sum_list_with_app; try done.
    + lia.
    + intros Hne. specialize (Hwake Hne). lia.
    + intros j. specialize (Hsmokes j). sums.
      rewrite Nat.add_0_r in Hsmokes. by rewrite sum_list_with_app.
    + lia.
    + intros j. specialize (Hsmoker j). sums. rewrite sum_list_with_app. lia.
    + by apply Forall_app.
Qed.

Lemma sys_reachable_invariant sys : sys_reachable sys → sys_invariant sys.
Proof.
  induction 1 as [|sys i choice sys' _ IH Hstep];
    [apply sys_invariant_main|by eapply sys_invariant_step].
Qed.

Lemma run_schedule_reachable schedule sys sys' :
  sys_reachable sys → run_schedule schedule sys = Some sys' → sys_reachable sys'.
Proof.
  revert sys. induction schedule as [|[i choice] schedule IH]; cbn; intros sys Hsys Hrun.
  { by injection Hrun as <-. }
  destruct (step_thread i choice sys) as [sys1|] eqn:Hstep; [cbn in Hrun|done].
  apply (IH sys1); [|done]. by apply sys_reachable_step with sys i choice.
Qed.

Lemma sum_list_with_le {A} (v w : A → nat) l :
  (∀ x, v x ≤ w x) → sum_list_with v l ≤ sum_list_with w l.
Proof.
  intros Hle. induction l as [|x l IH]; cbn; [done|]. specialize (Hle x). lia.
Qed.

(** A thread can take a step unless it waits for a permit that is not
    there. *)
Lemma thread_can_step th tb :
  table_mutex tb = 1 → status_total tb →
  (∀ a b, th = Agent (AgentAcquire a b) → 0 < agent_sem tb) →
  (∀ k, th = Smoker k SmokerAcquire → 0 < smoker_sem tb) →
  ∃ next, thread_step th tb !! 0 = Some next.
Proof.
  intros Hm Htot Hagent Hsmoker.
  destruct th as [[|a b|a b|]|k []|k []]; unfold thread_step;
    rewrite ?acquire_eq, ?place_section_eq, ?finish_section_eq, ?try_take_eq;
    cbn [permits]; rewrite ?Hm; try (by eexists).
  - specialize (Hagent a b eq_refl). destruct (agent_sem tb); [lia|by eexists].
  - specialize (Hsmoker k eq_refl). destruct (smoker_sem tb); [lia|by eexists].
  - case_decide; [|by eexists]. destruct (Htot k) as [[] ->]; by eexists.
Qed.

Lemma sys_agent_placing_reachable : sys_reachable sys_agent_placing.
Proof.
  apply (run_schedule_reachable [(0, 0); (0, 0)] main);
    [apply sys_reachable_main|reflexivity].
Qed.

Lemma sys_pair_waiting_reachable : sys_reachable sys_pair_waiting.
Proof.
  apply (run_schedule_reachable [(0, 0); (0, 0); (0, 0)] main);
    [apply sys_reachable_main|reflexivity].
Qed.

Lemma sys_matches_smoking_reachable : sys_reachable sys_matches_smoking.
Proof.
  apply (run_schedule_reachable
           [(0, 0); (0, 0); (0, 0); (0, 0); (3, 0); (3, 0); (3, 0)] main);
    [apply sys_reachable_main|reflexivity].
Qed.

Lemma holds_smoker_permit_pos th :
  0 < holds_smoker_permit th →
  holds_smoker_permit th = 1 ∧
  ∀ a b k, th ≠ Agent (AgentAcquire a b) ∧ th ≠ Smoker k SmokerAcquire.
Proof. destruct th as [[]|? []|? []]; cbn; try lia; done. Qed.

Lemma smokes_pos k th :
  0 < smokes k th ↔ th = Smoker k SmokerStart ∨ th = Smoke k SmokeFinish.
Proof.
  destruct th as [[]|j []|j []]; cbn; try case_decide; subst;
    split; try lia; try (by intros [|]); auto; intros [[=]|[=]]; done.
Qed.

(** ** The threads stay alive *)

(** X11. In every state of the program the mutex is free between two
    steps, there is exactly one agent and one smoker for each ingredient,
    and no thread ends by an exception: the only thread that ends is a
    [smoke] thread after its [release]. *)
Theorem program_threads_stay sys :
  sys_reachable sys →
  table_mutex (table sys) = 1 ∧
  sum_list_with is_agent (threads sys) = 1 ∧
  (∀ k, sum_list_with (is_smoker k) (threads sys) = 1) ∧
  (∀ th choice next,
     th ∈ threads sys → thread_step th (table sys) !! choice = Some next →
     next.1 = [] → ∃ k, th = Smoke k SmokeSignal).
Proof.
  intros [Hm Htot _ _ _ _ Hone Hsmoker _]%sys_reachable_invariant.
  split_and!; try done.
  intros th choice next _ Hnext Hend.
  destruct th as [[|a b|a b|]|k []|k []]; unfold thread_step in Hnext;
    rewrite ?acquire_eq, ?place_section_eq, ?finish_section_eq, ?try_take_eq
      in Hnext; cbn [permits] in Hnext; rewrite ?Hm in Hnext.
  - by apply list_lookup_fmap_Some in Hnext as (? & -> & _).
  - destruct (agent_sem _); [done|].
    by apply lookup_singleton_list_inv in Hnext as ->.
  - by apply lookup_singleton_list_inv in Hnext as ->.
  - by apply lookup_singleton_list_inv in Hnext as ->.
  - destruct (smoker_sem _); [done|].
    by apply lookup_singleton_list_inv in Hnext as ->.
  - case_decide; [destruct (Htot k) as [[] Hk]; rewrite Hk in Hnext|];
      by apply lookup_singleton_list_inv in Hnext as ->.
  - by apply lookup_singleton_list_inv in Hnext as ->.
  - by apply lookup_singleton_list_inv in Hnext as ->.
  - by apply lookup_singleton_list_inv in Hnext as ->.
  - by exists k.
Qed.

Lemma program_threads_stay_witness :
  sys_reachable sys_matches_smoking ∧
  table_mutex (table sys_matches_smoking) = 1 ∧
  sum_list_with is_agent (threads sys_matches_smoking) = 1 ∧
  (∀ k, sum_list_with (is_smoker k) (threads sys_matches_smoking) = 1) ∧
  (∀ th choice next,
     th ∈ threads sys_matches_smoking →
     thread_step th (table sys_matches_smoking) !! choice = Some next →
     next.1 = [] → ∃ k, th = Smoke k SmokeSignal).
Proof.
  split; [exact sys_matches_smoking_reachable|].
  apply (program_threads_stay sys_matches_smoking sys_matches_smoking_reachable).
Defined.

(** ** The agent and the table *)

(** X12. In every state of the program in which the agent stands before
    the block of [place_ingredients] that writes the table, the table is
    empty and not busy, [agent_sem] has no permit, and the two ingredients
    the agent carries differ: the agent never writes over a pair that has
    not been taken. *)
Theorem agent_places_on_empty_table sys a b :
  sys_reachable sys → Agent (AgentPlace a b) ∈ threads sys →
  ingredients (table sys) = [] ∧ table_busy (table sys) = false ∧
  agent_sem (table sys) = 0 ∧ a ≠ b.
Proof.
  intros [_ _ Hbusy Hagent _ _ _ _ Hdraw]%sys_reachable_invariant Hin.
  pose proof (sum_list_with_in _ holds_agent_permit _ Hin) as Hle; cbn in Hle.
  destruct (table_busy (table sys)) eqn:Eb; [lia|].
  split_and!; [|done|lia|].
  - destruct (ingredients (table sys)) eqn:Ei; [done|].
    unfold busy_iff_nonempty in Hbusy. rewrite Ei, Eb in Hbusy.
    by assert (false = true) by by apply Hbusy.
  - rewrite Forall_forall in Hdraw. specialize (Hdraw _ Hin); cbn in Hdraw.
    by apply (random_sample2_distinct INGREDIENTS a b NoDup_INGREDIENTS).
Qed.

Lemma agent_places_on_empty_table_witness :
  sys_reachable sys_agent_placing ∧
  Agent (AgentPlace Tobacco Paper) ∈ threads sys_agent_placing ∧
  ingredients (table sys_agent_placing) = [] ∧
  table_busy (table sys_agent_placing) = false ∧
  agent_sem (table sys_agent_placing) = 0 ∧ Tobacco ≠ Paper.
Proof.
  assert (Agent (AgentPlace Tobacco Paper) ∈ threads sys_agent_placing) as Hin
    by (cbn; constructor).
  split; [exact sys_agent_placing_reachable|]. split; [exact Hin|].
  apply (agent_places_on_empty_table sys_agent_placing Tobacco Paper
           sys_agent_placing_reachable Hin).
Defined.

(** ** Wake-ups *)

(** X13. In every state of the program in which a pair lies on the table,
    a wake-up for it is on its way: [smoker_sem] has a permit, or some
    thread has one in hand (a smoker between its [acquire] and its
    [try_take] or [release], or a thread that is about to [release]). *)
Theorem no_lost_wake_up sys :
  sys_reachable sys → ingredients (table sys) ≠ [] →
  0 < smoker_sem (table sys) ∨
  ∃ th, th ∈ threads sys ∧ holds_smoker_permit th = 1.
Proof.
  intros [_ _ _ _ Hwake _ _ _ _]%sys_reachable_invariant Hne.
  specialize (Hwake Hne).
  destruct (smoker_sem (table sys)); [right|left; lia].
  destruct (sum_list_with_pos holds_smoker_permit (threads sys))
    as (before & th & after & Hths & Hpos); [lia|].
  exists th. split; [|by apply holds_smoker_permit_pos].
  rewrite Hths. apply elem_of_app. right. constructor.
Qed.

Lemma no_lost_wake_up_witness :
  sys_reachable sys_pair_waiting ∧
  ingredients (table sys_pair_waiting) ≠ [] ∧
  (0 < smoker_sem (table sys_pair_waiting) ∨
   ∃ th, th ∈ threads sys_pair_waiting ∧ holds_smoker_permit th = 1).
Proof.
  assert (ingredients (table sys_pair_waiting) ≠ []) as Hne by discriminate.
  split; [exact sys_pair_waiting_reachable|]. split; [exact Hne|].
  apply (no_lost_wake_up sys_pair_waiting sys_pair_waiting_reachable Hne).
Defined.

(** ** No deadlock *)

Lemma thread_step_system ths before th after tb next :
  ths = before ++ th :: after → thread_step th tb !! 0 = Some next →
  ∃ i choice sys', step_thread i choice (mkSystem ths tb) = Some sys'.
Proof.
  intros -> Hnext. eexists (length before), 0, _.
  by apply step_thread_intro.
Qed.

(** X14. The program never gets stuck: in every state that its threads
    reach, some thread can take a step.  When the agent waits for its
    permit, a pair lies on the table and a smoker holds or can get a
    wake-up for it. *)
Theorem program_never_stuck sys :
  sys_reachable sys → ∃ i choice sys', step_thread i choice sys = Some sys'.
Proof.
  intros Hreach.
  destruct (sys_reachable_invariant sys Hreach)
    as [Hm Htot Hbusy Hagent Hwake _ Hone Hsmoker _].
  destruct sys as [ths tb]; cbn in *.
  destruct (sum_list_with_pos is_agent ths) as (before & th & after & Hths & Hpos);
    [lia|].
  destruct th as [pc| |]; cbn in Hpos; try lia.
  destruct (decide (0 < agent_sem tb)) as [Hsem|Hsem].
  { destruct (thread_can_step (Agent pc) tb) as [next Hnext]; try done.
    by eapply thread_step_system. }
  assert (∀ th', th' ∈ ths → (∀ a b, th' ≠ Agent (AgentAcquire a b)) →
                 (∀ k, th' = Smoker k SmokerAcquire → 0 < smoker_sem tb) →
                 ∃ i choice sys', step_thread i choice (mkSystem ths tb)
                                  = Some sys') as Hgo.
  { intros th' (before' & after' & Hths')%list_elem_of_split Hnot Hsm.
    destruct (thread_can_step th' tb) as [next Hnext]; try done.
    - intros a b ->. by destruct (Hnot a b).
    - by eapply thread_step_system. }
  assert (Agent pc ∈ ths) as Hin
    by (rewrite Hths; apply elem_of_app; right; constructor).
  destruct pc as [|a b|a b|]; try (by apply (Hgo _ Hin)).
  assert (sum_list_with holds_agent_permit ths = 0) as Hnone.
  { assert (sum_list_with holds_agent_permit before ≤ sum_list_with is_agent before)
      by (apply sum_list_with_le; intros [[]| |]; cbn; lia).
    assert (sum_list_with holds_agent_permit after ≤ sum_list_with is_agent after)
      by (apply sum_list_with_le; intros [[]| |]; cbn; lia).
    rewrite Hths, sum_list_with_middle in Hone |- *. cbn in *. lia. }
  assert (ingredients tb ≠ []) as Hne.
  { apply Hbusy. destruct (table_busy tb); [done|lia]. }
  specialize (Hwake Hne).
  destruct (decide (0 < smoker_sem tb)) as [Hs|Hs].
  - destruct (sum_list_with_pos (is_smoker Tobacco) ths)
      as (before' & th' & after' & Hths' & Hpos'); [rewrite Hsmoker; lia|].
    destruct th' as [|k pc|]; cbn in Hpos'; try lia.
    apply (Hgo (Smoker k pc)); [|done|done].
    rewrite Hths'. apply elem_of_app; right; constructor.
  - destruct (sum_list_with_pos holds_smoker_permit ths)
      as (before' & th' & after' & Hths' & Hpos'); [lia|].
    apply holds_smoker_permit_pos in Hpos' as [_ Hother].
    apply (Hgo th').
    + rewrite Hths'. apply elem_of_app; right; constructor.
    + intros a' b'. by destruct (Hother a' b' Tobacco) as [? _].
    + intros k ->. by destruct (Hother Tobacco Tobacco k) as [_ ?].
Qed.

Lemma program_never_stuck_witness :
  sys_reachable sys_pair_waiting ∧
  ∃ i choice sys', step_thread i choice sys_pair_waiting = Some sys'.
Proof.
  split; [exact sys_pair_waiting_reachable|].
  apply (program_never_stuck sys_pair_waiting sys_pair_waiting_reachable).
Defined.

(** ** Smoking *)

(** X15. In every state of the program, [smoker_status[k]] is [True]
    exactly while smoker [k] has taken a pair and its [smoke] thread has
    not yet cleared the entry; there is at most one such thread for each
    smoker, so [finish_smoking k] runs once for each pair that [k] took,
    and only while the entry is [True]. *)
Theorem smoking_while_smoke_thread sys k :
  sys_reachable sys →
  (smoker_status (table sys) !! k = Some true ↔
   Smoker k SmokerStart ∈ threads sys ∨ Smoke k SmokeFinish ∈ threads sys) ∧
  sum_list_with (smokes k) (threads sys) ≤ 1.
Proof.
  intros [_ _ _ _ _ Hsmokes _ _ _]%sys_reachable_invariant.
  destruct (Hsmokes k) as [Hk Hle]. split; [|done]. rewrite Hk. split.
  - intros [= Hb%bool_decide_eq_true].
    destruct (sum_list_with_pos (smokes k) (threads sys))
      as (before & th & after & Hths & Hpos); [lia|].
    assert (th ∈ threads sys) as Hin
      by (rewrite Hths; apply elem_of_app; right; constructor).
    by apply smokes_pos in Hpos as [<-|<-]; [left|right].
  - intros Hin. f_equal. apply bool_decide_eq_true.
    assert (∃ th, th ∈ threads sys ∧ 0 < smokes k th) as (th & Hth & Hpos).
    { destruct Hin as [Hin|Hin]; eexists; (split; [exact Hin|]);
        apply smokes_pos; auto. }
    pose proof (sum_list_with_in _ (smokes k) _ Hth). lia.
Qed.

Lemma smoking_while_smoke_thread_witness :
  sys_reachable sys_matches_smoking ∧
  (smoker_status (table sys_matches_smoking) !! Matches = Some true ↔
   Smoker Matches SmokerStart ∈ threads sys_matches_smoking ∨
   Smoke Matches SmokeFinish ∈ threads sys_matches_smoking) ∧
  sum_list_with (smokes Matches) (threads sys_matches_smoking) ≤ 1.
Proof.
  split; [exact sys_matches_smoking_reachable|].
  apply (smoking_while_smoke_thread sys_matches_smoking Matches
           sys_matches_smoking_reachable).
Defined.

(** ** The program and the calls *)

(** X16. Whatever the interleaving of the threads' steps, the table of the
    program is one that a sequence of whole method calls reaches: some
    table reached by [place_ingredients], [try_take] and [finish_smoking]
    calls has the same ingredients, the same [smoker_status] and the same
    [table_busy]. *)
Theorem program_follows_calls sys :
  sys_reachable sys →
  ∃ t, reachable thread_call t ∧
       ingredients t = ingredients (table sys) ∧
       smoker_status t = smoker_status (table sys) ∧
       table_busy t = table_busy (table sys).
Proof.
  induction 1 as [|sys i choice sys' Hreach (t & Ht & Hi & Hs & Hb) Hstep].
  { exists Table_init. split; [apply reachable_init|done]. }
  destruct (sys_reachable_invariant sys Hreach)
    as [Hm Htot _ Hagent _ _ _ _ Hdraw].
  destruct (reachable_well_formed t (reachable_thread_any t Ht))
    as (Hmt & _ & _ & Hat).
  apply step_thread_inv in Hstep
    as (before & th & after & next & Hths & _ & Hnext & ->).
  destruct sys as [ths tb]; cbn in *; subst ths.
  assert (∀ tb', ingredients tb' = ingredients tb →
                 smoker_status tb' = smoker_status tb →
                 table_busy tb' = table_busy tb →
                 ∃ t0, reachable thread_call t0 ∧
                       ingredients t0 = ingredients tb' ∧
                       smoker_status t0 = smoker_status tb' ∧
                       table_busy t0 = table_busy tb') as Hsame.
  { intros tb' -> -> ->. by exists t. }
  destruct th as [[|a b|a b|]|k []|k []]; unfold thread_step in Hnext;
    rewrite ?acquire_eq, ?release_eq, ?place_section_eq, ?finish_section_eq,
      ?try_take_eq in Hnext; cbn [permits set_permits] in Hnext;
    rewrite ?Hm in Hnext.
  - apply list_lookup_fmap_Some in Hnext as (draw & -> & _). by apply Hsame.
  - destruct (agent_sem tb); [done|].
    apply lookup_singleton_list_inv in Hnext as ->. by apply Hsame.
  - apply lookup_singleton_list_inv in Hnext as ->; cbn.
    rewrite sum_list_with_middle in Hagent; cbn in Hagent.
    assert (table_busy t = false) as Hfree
      by (rewrite Hb; destruct (table_busy tb); [lia|done]).
    rewrite Hfree in Hat.
    exists (mkTable (table_mutex t) 0 (S (smoker_sem t)) [a; b]
              (smoker_status t) true).
    split; [|done].
    apply (reachable_call thread_call t (PlaceIngredients a b)); [done| |].
    + apply Forall_app in Hdraw as [_ Hdraw].
      by apply Forall_cons in Hdraw as [Hdraw _].
    + cbn. by rewrite place_ingredients_eq, Hat, Hmt.
  - apply lookup_singleton_list_inv in Hnext as ->. by apply Hsame.
  - destruct (smoker_sem tb); [done|].
    apply lookup_singleton_list_inv in Hnext as ->. by apply Hsame.
  - case_decide as Hset;
      [destruct (smoker_status tb !! k) as [[]|] eqn:Hk|];
      apply lookup_singleton_list_inv in Hnext as ->; cbn;
      try (by apply Hsame).
    exists (mkTable (table_mutex t) (S (agent_sem t)) (smoker_sem t) []
              (<[k := true]> (smoker_status t)) false).
    split; [|by rewrite Hs].
    apply (reachable_call thread_call t (TryTake k)); [done..|].
    cbn. rewrite try_take_eq, Hmt, Hi, Hs, decide_True, Hk by done. done.
  - apply lookup_singleton_list_inv in Hnext as ->. by apply Hsame.
  - apply lookup_singleton_list_inv in Hnext as ->. by apply Hsame.
  - apply lookup_singleton_list_inv in Hnext as ->; cbn.
    exists (mkTable (table_mutex t) (agent_sem t) (S (smoker_sem t))
              (ingredients t) (<[k := false]> (smoker_status t)) (table_busy t)).
    split; [|by rewrite Hi, Hs, Hb].
    apply (reachable_call thread_call t (FinishSmoking k)); [done..|].
    cbn. by rewrite finish_smoking_eq, Hmt.
  - apply lookup_singleton_list_inv in Hnext as ->. by apply Hsame.
Qed.

Lemma program_follows_calls_witness :
  sys_reachable sys_matches_smoking ∧
  ∃ t, reachable thread_call t ∧
       ingredients t = ingredients (table sys_matches_smoking) ∧
       smoker_status t = smoker_status (table sys_matches_smoking) ∧
       table_busy t = table_busy (table sys_matches_smoking).
Proof.
  split; [exact sys_matches_smoking_reachable|].
  apply (program_follows_calls sys_matches_smoking sys_matches_smoking_reachable).
Defined.

(** ** The permits of [smoker_sem] *)

Lemma main_with_permits_reachable n : sys_reachable (main_with_permits n).
Proof.
  induction n as [|n IH]; [apply sys_reachable_main|].
  apply (run_schedule_reachable
           [(0, 0); (0, 0); (0, 0); (0, 0); (3, 0); (3, 0); (3, 0);
            (4, 0); (4, 0)] (main_with_permits n) _ IH).
  vm_compute. reflexivity.
Qed.

(** X17. The permits of [smoker_sem] pile up: every cigarette leaves one
    more (the agent releases one, the smoker that takes the pair uses it,
    [finish_smoking] releases another), so for every [n] the program
    reaches a state with the threads of the start, an empty table, and [n]
    permits in [smoker_sem]. *)
Theorem smoker_permits_pile_up n :
  ∃ sys, sys_reachable sys ∧ threads sys = threads main ∧
         ingredients (table sys) = [] ∧ smoker_sem (table sys) = n.
Proof.
  exists (main_with_permits n). split; [apply main_with_permits_reachable|done].
Qed.

(** ** A missing key *)

(** X18. [try_take k] raises exactly when the pair that [k] needs lies on
    the table and the dictionary has no entry for [k]; the exception is
    [KeyError] for [k], and the [with] block has given the mutex back: the
    table is as before the call. *)
Theorem try_take_KeyError k t e t' :
  try_take k t = Raised e t' ↔
  0 < table_mutex t ∧ list_to_set (ingredients t) = needed k ∧
  smoker_status t !! k = None ∧ e = KeyError k ∧ t' = t.
Proof.
  rewrite try_take_eq. destruct (table_mutex t) as [|m]; [split; [done|lia]|].
  case_decide as Hset; [|split; [done|by intros (_ & ? & _)]].
  destruct (smoker_status t !! k) as [[]|]; split; try done;
    try (by intros (_ & _ & ? & _)).
  - intros [= <- <-]. split_and!; (done || lia).
  - by intros (_ & _ & _ & -> & ->).
Qed.

Lemma try_take_KeyError_witness :
  try_take Matches (mkTable 1 0 1 [Tobacco; Paper] ∅ true)
  = Raised (KeyError Matches) (mkTable 1 0 1 [Tobacco; Paper] ∅ true) ∧
  smoker_status (mkTable 1 0 1 [Tobacco; Paper] ∅ true) !! Matches = None.
Proof.
  split; [reflexivity|].
  apply (proj1 (try_take_KeyError Matches (mkTable 1 0 1 [Tobacco; Paper] ∅ true)
                  (KeyError Matches) (mkTable 1 0 1 [Tobacco; Paper] ∅ true))).
  reflexivity.
Defined.
